(** * gocal: interval map, batcher, disambiguation scorer and room-assignment scan

    A shallow embedding of the Go packages [internal/interval],
    [internal/batch], [internal/itercal] and of the assignment code of
    [cmd/gocal], with the properties of the specification stated over them.

    Conventions.
    - [time.Time] is an instant on the time line, a [Z]; [Before] and
      [Equal] compare instants.
    - Go's [int] is a 64-bit two's complement integer: a [Z] with the
      wrap-around written out ([wrap]).
    - Slice indices and lengths are [nat].
    - A call that ends the process ([log.Fatal], [os.Exit], [panic]) is a
      value of [outcome] other than [Done]. *)

From Stdlib Require Import ZArith Lia Floats Uint63 Ascii String.
From stdpp Require Import base list sorting strings pretty gmap.

Open Scope Z_scope.

(** ** The standard library's [sort.Search]

    [[
    func Search(n int, f func(int) bool) int {
        i, j := 0, n
        for i < j {
            h := int(uint(i+j) >> 1)
            if !f(h) { i = h + 1 } else { j = h }
        }
        return i
    }
    ]]
    The loop runs at most [n] times (the width [j - i] shrinks at every
    turn), so [n] is enough fuel. *)

Module sort.

Fixpoint search_loop (fuel : nat) (f : nat -> bool) (i j : nat) : nat :=
  match fuel with
  | O => i
  | S fuel' =>
      if (i <? j)%nat then
        let h := ((i + j) / 2)%nat in
        if negb (f h) then search_loop fuel' f (h + 1) j
        else search_loop fuel' f i h
      else i
  end.

Definition Search (n : nat) (f : nat -> bool) : nat := search_loop n f 0 n.

(** With a predicate that never goes back to [false] on [[0, n)], the
    result is the least index at which it holds. *)
Definition monotone (n : nat) (f : nat -> bool) : Prop :=
  forall a b, (a <= b < n)%nat -> f a = true -> f b = true.

End sort.

(** ** Ways a run can end

    [Done] is a normal return. [Fatal] stands for [log.Fatal], [log.Fatalf]
    and [os.Exit(1)]; [Panic] for a Go panic (an explicit [panic], or an
    index out of range). *)

Inductive outcome (A : Type) : Type :=
  | Done (a : A)
  | Fatal (msg : string)
  | Panic (msg : string).
Arguments Done {A} a.
Arguments Fatal {A} msg.
Arguments Panic {A} msg.

#[global] Instance outcome_ret : MRet outcome := fun A a => Done a.
#[global] Instance outcome_bind : MBind outcome := fun A B k m =>
  match m with
  | Done a => k a
  | Fatal msg => Fatal msg
  | Panic msg => Panic msg
  end.

(** ** Package [internal/interval] *)

Module interval.

Definition Time := Z.
Definition Before (t u : Time) : bool := t <? u.
Definition Equal (t u : Time) : bool := t =? u.

Record Interval : Type := mkInterval { Start : Time; End : Time }.

Definition Less (i j : Interval) : bool :=
  if Before (Start i) (Start j) then true
  else if Equal (Start i) (Start j) && Before (End i) (End j) then true
  else false.

Definition Overlaps (i j : Interval) : bool :=
  if Before (Start j) (End i) && Before (Start i) (End j) then true
  else false.

(** [OrDie] parses two RFC 3339 strings; [time.Parse] is the standard
    library's and is taken as a parameter. *)
Definition dateTimeOrDie (Parse : string -> option Time) (s : string) : outcome Time :=
  match Parse s with
  | Some x => Done x
  | None => Fatal "cannot be converted to time"
  end.

Definition OrDie (Parse : string -> option Time) (s e : string) : outcome Interval :=
  st ← dateTimeOrDie Parse s;
  en ← dateTimeOrDie Parse e;
  Done (mkInterval st en).

(** [copy(l[i+1:], l[i:])]: the elements from index [i] on move up by one
    place; [copy] moves [min(len(dst), len(src))] elements and behaves as
    [memmove] when the two slices overlap. *)
Definition copy_up {A} (l : list A) (i : nat) : list A :=
  take (i + 1) l ++ take (length l - (i + 1)) (drop i l).

(** The body shared by the two goroutines of [Add]:
    [l = append(l, zero); copy(l[i+1:], l[i:]); l[i] = x].
    The slice expression [l[i+1:]] panics when [i+1 > len(l)]. *)
Definition insert_at {A} (zero : A) (l : list A) (i : nat) (x : A) : outcome (list A) :=
  let l' := l ++ [zero] in
  if (length l' <? i + 1)%nat then Panic "slice bounds out of range"
  else Done (<[i := x]> (copy_up l' i)).

Record Map (T : Type) : Type := mkMap { intervals : list Interval; data : list T }.
Arguments mkMap {T} intervals data.
Arguments intervals {T} m.
Arguments data {T} m.

Section Map.
Context {T : Type}.
(** [var zero T] *)
Variable zero : T.

(** The zero [Interval{}]. *)
Definition zeroInterval : Interval := mkInterval 0 0.

(** The zero [Map]: both slices are nil. *)
Definition empty : Map T := mkMap [] [].

(** [im.intervals[i]] inside a predicate given to [sort.Search]; the index
    is always in range there ([Search_ext]), so the value chosen out
    of range is never used. *)
Definition at_index (im : Map T) (p : Interval -> bool) (i : nat) : bool :=
  match intervals im !! i with
  | Some x => p x
  | None => false
  end.

(** The two goroutines of [Add] write disjoint fields ([intervals] and
    [data]), read the same [i], and are joined by the wait group before
    [Add] returns: their effect is that of running one after the other. *)
Definition Add (im : Map T) (start end_ : Time) (t : T) : outcome (Map T) :=
  let itr := mkInterval start end_ in
  let i := sort.Search (length (intervals im)) (at_index im (fun x => Less itr x)) in
  ivs ← insert_at zeroInterval (intervals im) i itr;
  ds ← insert_at zero (data im) i t;
  Done (mkMap ivs ds).

(** A sequence of [Add] calls on the zero map. *)
Definition AddAll (ops : list (Time * Time * T)) : outcome (Map T) :=
  foldl (fun acc '(s, e, t) => im ← acc; Add im s e t) (Done empty) ops.

Definition okFunc (im : Map T) (start end_ : Time) (i : nat) : bool :=
  at_index im (fun x =>
    if negb (Before start (Start x)) && negb (Before (End x) end_) then true
    else false) i.

(** The [for ; i < len(im.intervals); i++] loop of [Covering]; it runs at
    most [len(im.intervals) - i] times. [im.data[i]] panics when [data] is
    shorter than [intervals]. *)
Fixpoint covering_loop (fuel : nat) (im : Map T) (start end_ : Time)
    (i : nat) (ret : list T) : outcome (list T) :=
  match fuel with
  | O => Done ret
  | S fuel' =>
      if (i <? length (intervals im))%nat then
        if negb (okFunc im start end_ i) then Done ret
        else match data im !! i with
             | Some v => covering_loop fuel' im start end_ (i + 1) (ret ++ [v])
             | None => Panic "index out of range"
             end
      else Done ret
  end.

Definition Covering (im : Map T) (start end_ : Time) : outcome (list T) :=
  let i := sort.Search (length (intervals im)) (okFunc im start end_) in
  if (i =? length (intervals im))%nat then Done []
  else covering_loop (length (intervals im) - i) im start end_ i [].

End Map.

(** "Sorted according to [Less]": no element is [Less] than one stored
    before it. *)
Definition sorted_by_Less (l : list Interval) : Prop :=
  forall i j a b, (i < j)%nat -> l !! i = Some a -> l !! j = Some b -> Less b a = false.

(** [sort.IsSorted] with [Less]: the same, checked on neighbours. *)
Fixpoint IsSorted (l : list Interval) : bool :=
  match l with
  | a :: (b :: _) as tl => negb (Less b a) && IsSorted tl
  | _ => true
  end.

(** The reading of the specification: the values whose stored interval
    contains [[s, e)], in stored order. *)
Definition contains (x : Interval) (s e : Time) : bool :=
  (Start x <=? s) && (e <=? End x).

Definition covering_spec {T} (im : Map T) (s e : Time) : list T :=
  map snd (List.filter (fun p => contains (fst p) s e) (zip (intervals im) (data im))).

End interval.

(** ** Package [internal/batch]

    [Up] reads a channel [values] fed by a concurrent producer and sends
    slices on a channel [batches]. What [Up] can observe of the producer is,
    at every [select], whether the next thing the producer does (sending
    the next value, or closing the channel once all values are sent) has
    already happened. The model takes the values the producer will send, in
    order (a channel is first-in first-out), and a schedule [sched] that
    answers that question for the [n]-th [select]; any schedule is possible.
    A blocking receive waits for the producer, so it always yields the next
    value, or "closed" when none is left. The consumer of [batches] is
    taken to receive every batch sent; the batches sent are collected in
    order. *)

Module batch.
Section Up.
Context {T : Type}.

(** The result of a receive: [v, ok = <-values]. *)
Inductive received : Type :=
  | Value (v : T)      (* ok = true *)
  | Closed.            (* ok = false *)

Definition receive (pending : list T) : received * list T :=
  match pending with
  | v :: rest => (Value v, rest)
  | [] => (Closed, [])
  end.

(** One turn of the inner [for] loop labelled [batch:], i.e. one [select].
    Leaving the inner loop by [break batch] sends the batch and starts the
    next turn of the outer loop with a nil batch. [None] is running out of
    fuel. *)
Fixpoint Up_loop (fuel : nat) (sched : nat -> bool) (tick : nat)
    (pending batch : list T) (sent : list (list T)) : option (list (list T)) :=
  match fuel with
  | O => None
  | S fuel' =>
      if sched tick then
        (* case v, ok = <-values: *)
        match receive pending with
        | (Closed, _) =>
            if (0 <? length batch)%nat then Some (sent ++ [batch]) else Some sent
        | (Value v, rest) =>
            Up_loop fuel' sched (S tick) rest (batch ++ [v]) sent
        end
      else
        (* default: *)
        if (0 <? length batch)%nat then
          Up_loop fuel' sched (S tick) pending [] (sent ++ [batch])
        else
          match receive pending with
          | (Closed, _) => Some sent
          | (Value v, rest) =>
              Up_loop fuel' sched (S tick) rest (batch ++ [v]) sent
          end
  end.

Definition Up (fuel : nat) (sched : nat -> bool) (values : list T) : option (list (list T)) :=
  Up_loop fuel sched 0 values [] [].

(** The number of turns still to come is at most this. *)
Definition turns_left (pending batch : list T) : nat :=
  2 * length pending + (if (0 <? length batch)%nat then 1 else 0) + 1.

End Up.
End batch.

(** ** Package [internal/itercal]: the disambiguation scorer

    [float64] is IEEE 754 binary64, Rocq's primitive [float]. The functions
    of [gonum.org/v1/gonum/stat] that [confidenceInFirst] calls are written
    out for a nil weight slice, as it calls them. *)

Module stat.

(** [floats.Sum] *)
Definition Sum (x : list float) : float := foldl PrimFloat.add 0%float x.

(** [float64(len(x))] *)
Definition float_len (x : list float) : float :=
  PrimFloat.of_uint63 (Uint63.of_Z (Z.of_nat (length x))).

(** [Mean(x, nil)]: [floats.Sum(x) / float64(len(x))] *)
Definition Mean (x : list float) : float := PrimFloat.div (Sum x) (float_len x).

(** [MeanVariance(x, nil)], the corrected two-pass algorithm:
    [[
    for _, v := range x { d := v - mean; ss += d * d; compensation += d }
    unnormalisedVariance = ss - compensation*compensation/float64(len(x))
    variance = unnormalisedVariance / (float64(len(x)) - 1)
    ]] *)
Definition MeanVariance (x : list float) : float * float :=
  let mean := Mean x in
  let '(ss, compensation) :=
    foldl (fun (acc : float * float) v =>
             let '(ss, compensation) := acc in
             let d := PrimFloat.sub v mean in
             (PrimFloat.add ss (PrimFloat.mul d d), PrimFloat.add compensation d))
          (0%float, 0%float) x in
  let unnormalisedVariance :=
    PrimFloat.sub ss (PrimFloat.div (PrimFloat.mul compensation compensation) (float_len x)) in
  (mean, PrimFloat.div unnormalisedVariance (PrimFloat.sub (float_len x) 1%float)).

(** [MeanStdDev(x, nil)]: the sample mean and the unbiased standard
    deviation. *)
Definition MeanStdDev (x : list float) : float * float :=
  let '(mean, variance) := MeanVariance x in (mean, PrimFloat.sqrt variance).

(** [StdScore(x, mean, std)] *)
Definition StdScore (x mean std : float) : float :=
  PrimFloat.div (PrimFloat.sub x mean) std.

End stat.

Module itercal.

(** standard deviations away from the mean *)
Definition minStdScore : float := 2%float.

(** The z-score [confidenceInFirst] compares with [minStdScore]. *)
Definition firstScore (f0 : float) (f : list float) : float :=
  let '(mean, stdev) := stat.MeanStdDev f in stat.StdScore f0 mean stdev.

Definition confidenceInFirst (f : list float) : outcome bool :=
  match f with
  | [] => Panic "empty values"
  | [_] => Done true
  | f0 :: _ => Done (PrimFloat.ltb minStdScore (firstScore f0 f))
  end.

(** What [SearchBuildings] uses of bleve's search result. *)
Record DocumentMatch : Type := mkHit { ID : string; Score : float }.
Record SearchResult : Type := mkResult { Total : nat; Hits : list DocumentMatch }.

(** [(buildingID, err)]: an id, or the error "%d buildings found". *)
Inductive found : Type :=
  | BuildingID (id : string)
  | BuildingsFound (total : nat).

(** [scores := make([]float64, results.Total)] filled by
    [scores[i] = d.Score] over the hits; the assignment panics when there
    are more hits than [Total]. *)
Definition scores_of (results : SearchResult) : outcome (list float) :=
  if (Total results <? length (Hits results))%nat then Panic "index out of range"
  else Done (map Score (Hits results) ++
             replicate (Total results - length (Hits results)) 0%float).

(** [SearchBuildings] from the search result on. *)
Definition SearchBuildings (results : SearchResult) : outcome found :=
  scores ← scores_of results;
  confident ← confidenceInFirst scores;
  if (confident : bool) then
    match Hits results with
    | h :: _ => Done (BuildingID (ID h))
    | [] => Panic "index out of range"
    end
  else Done (BuildingsFound (Total results)).

(** *** Paged enumeration ([ForEachEvent], [ForEachBuilding],
    [ForEachResourceInBuilding])

    The three functions have one shape: the pager of the API client calls
    the closure on every page, and the closure calls [f] on every item of
    the page, returning the first error. The pager ([Pages]) is the
    client library's:
    [[
    for {
        x, err := c.Do()
        if err != nil { return err }
        if err := f(x); err != nil { return err }
        if x.NextPageToken == "" { return nil }
        c.PageToken(x.NextPageToken)
    }
    ]]
    The answers of the service are a list, one per request: a failure, or
    a page of items (the last one carrying no next-page token; at least one
    request is made). [f] works on a state [S]; its error is [Some]. *)

Section ForEach.
Context {Item S Err : Type}.

(** [for _, item := range page { if err := f(item); err != nil { return err } }] *)
Fixpoint each (f : Item -> S -> option Err * S) (items : list Item) (st : S) : option Err * S :=
  match items with
  | [] => (None, st)
  | item :: rest =>
      match f item st with
      | (Some err, st') => (Some err, st')
      | (None, st') => each f rest st'
      end
  end.

Fixpoint Pages (answers : list (Err + list Item))
    (f : list Item -> S -> option Err * S) (st : S) : option Err * S :=
  match answers with
  | [] => (None, st)
  | inl err :: _ => (Some err, st)
  | inr page :: rest =>
      match f page st with
      | (Some err, st') => (Some err, st')
      | (None, st') => Pages rest f st'
      end
  end.

Definition ForEach (answers : list (Err + list Item))
    (f : Item -> S -> option Err * S) (st : S) : option Err * S :=
  Pages answers (each f) st.

End ForEach.

(** *** The consumer of [Buildings]

    What the consumer goroutine does to the index, in order:
    [idx.NewBatch()], [batch.Index(b.BuildingId, b)] for every building of
    the batch received, then [idx.Batch(batch)]. *)







End itercal.

(** ** Go's [int], [strconv.ParseInt] and two functions of [strings] *)

Module gostd.

Definition MaxInt : Z := 2 ^ 63 - 1.
Definition MinInt : Z := - 2 ^ 63.

(** The value of a 64-bit two's complement integer after overflow. *)
Definition wrap (z : Z) : Z := (z + 2 ^ 63) mod 2 ^ 64 - 2 ^ 63.

Definition add (x y : Z) : Z := wrap (x + y).
Definition sub (x y : Z) : Z := wrap (x - y).
Definition mul (x y : Z) : Z := wrap (x * y).
Definition neg (x : Z) : Z := wrap (- x).

Definition digit (c : ascii) : option Z :=
  let n := Z.of_nat (nat_of_ascii c) in
  if (48 <=? n) && (n <=? 57) then Some (n - 48) else None.

Fixpoint digits (acc : Z) (s : string) : option Z :=
  match s with
  | EmptyString => Some acc
  | String c s' =>
      match digit c with
      | Some d => digits (10 * acc + d) s'
      | None => None
      end
  end.

(** [strconv.ParseInt(s, 10, 64)]: an optional sign, then one or more
    decimal digits, denoting a value that fits 64 bits; anything else is an
    error. *)
Definition ParseInt (s : string) : option Z :=
  match s with
  | EmptyString => None
  | String c rest =>
      let '(negative, body) :=
        if Ascii.eqb c "+" then (false, rest)
        else if Ascii.eqb c "-" then (true, rest)
        else (false, s) in
      match body with
      | EmptyString => None
      | _ =>
          match digits 0 body with
          | Some un =>
              if negative then (if un <=? 2 ^ 63 then Some (- un) else None)
              else (if un <? 2 ^ 63 then Some un else None)
          | None => None
          end
      end
  end.

(** [strings.Contains(s, substr)] *)
Fixpoint Contains (s substr : string) : bool :=
  String.prefix substr s ||
  match s with
  | EmptyString => false
  | String _ s' => Contains s' substr
  end.

(** [strings.ReplaceAll(s, old, new)] for a non-empty [old]: the
    non-overlapping occurrences of [old] are replaced from left to right.
    [skip] counts the characters of an occurrence still to be dropped. *)
Fixpoint replace_from (old new : string) (skip : nat) (s : string) : string :=
  match s with
  | EmptyString => EmptyString
  | String c s' =>
      match skip with
      | S k => replace_from old new k s'
      | O =>
          if String.prefix old s
          then new +:+ replace_from old new (String.length old - 1) s'
          else String c (replace_from old new 0 s')
      end
  end.

Definition ReplaceAll (s old new : string) : string := replace_from old new 0 s.

End gostd.

(** ** Package [main] of [cmd/gocal] *)

Module gocal.
Import gostd.

Definition roomTag : string := "#room".
Definition roomTagDone : string := "#addedroom".

(** The fields of [directory.CalendarResource] the program uses. *)
Record CalendarResource : Type := mkResource {
  ResourceEmail : string;
  ResourceCategory : string;
  FloorName : string;
  FloorSection : string;
  GeneratedResourceName : string
}.

Definition intOrDie (s : string) : outcome Z :=
  match ParseInt s with
  | Some x => Done x
  | None => Fatal "cannot be converted to int"
  end.

Definition abs (x : Z) : Z := if x <? 0 then neg x else x.

Definition min (x y : Z) : Z := if x <? y then x else y.

(** Distances in approximate meters *)
Definition subsequentChangeOfSection : Z := 5.
Definition firstChangeOfSection : Z := 5.
Definition subsequentChangeOfFloor : Z := 10.
Definition firstChangeOfFloor : Z := firstChangeOfSection + subsequentChangeOfFloor.

(** A nil [*directory.CalendarResource] is [None]. *)
Definition distance (r1 r2 : option CalendarResource) : outcome Z :=
  match r1, r2 with
  | Some r1, Some r2 =>
      let distance := 0 in
      f1 ← intOrDie (FloorName r1);
      f2 ← intOrDie (FloorName r2);
      s1 ← intOrDie (FloorSection r1);
      s2 ← intOrDie (FloorSection r2);
      let distance :=
        if negb (f1 =? f2) then
          let distance := add distance firstChangeOfFloor in
          add distance (mul (sub (abs (sub f1 f2)) 1) subsequentChangeOfFloor)
        else distance in
      let distance :=
        if negb (s1 =? s2) then
          let distance := add distance firstChangeOfSection in
          add distance (mul (sub (abs (sub s1 s2)) 1) subsequentChangeOfSection)
        else distance in
      Done distance
  | _, _ => Done MaxInt
  end.

(** The fields of the [calendar] API types the program uses. *)
Record EventAttendee : Type := mkAttendee {
  Email : string;
  Resource : bool;
  ResponseStatus : string;
  Self : bool
}.

Record EventDateTime : Type := mkDateTime { DateTime : string }.

Record Event : Type := mkEvent {
  Id : string;
  Summary : string;
  Description : string;
  Start : EventDateTime;
  End : EventDateTime;
  Attendees : list EventAttendee;
  AttendeesOmitted : bool;
  Attachments : list string;
  ColorId : string;
  ConferenceData : string;
  HangoutLink : string;
  Location : string;
  Transparency : string;
  Visibility : string;
  Status : string
}.

(** [calendar.TimePeriod]; its fields are [Start] and [End] in Go. *)
Record TimePeriod : Type := mkPeriod { PeriodStart : string; PeriodEnd : string }.

(** [calendar.Error] *)
Record Error : Type := mkError { Reason : string }.

Record FreeBusyCalendar : Type := mkCalendar {
  Busy : list TimePeriod;
  Errors : list Error
}.

(** *** The free/busy bulk-fetch loop (the goroutine of [main])

    [Query n items] stands for [calSrv.Freebusy.Query(req).Do()] on the
    request whose items are the given emails, [n] requests having been made
    before: [None] is [err != nil], otherwise the entries of [fr.Calendars]
    in the order the [range] visits them. *)

Definition batchSize : nat := 20.

(** [for _, e := range cal.Errors]: [Done notFound], or [os.Exit(1)]. *)
Fixpoint scan_errors (errors : list Error) (notFound : bool) : outcome bool :=
  match errors with
  | [] => Done notFound
  | e :: rest =>
      if String.eqb (Reason e) "notFound" then scan_errors rest true (* just don't add it *)
      else Fatal "freebusy"
  end.

(** The body of [for email, cal := range fr.Calendars]. *)
Definition record_calendar (freeBusy : gmap string FreeBusyCalendar)
    (email : string) (cal : FreeBusyCalendar) : outcome (gmap string FreeBusyCalendar) :=
  notFound ← (if (0 <? length (Errors cal))%nat then scan_errors (Errors cal) false
              else Done false);
  if negb notFound then Done (<[email := cal]> freeBusy) else Done freeBusy.

Fixpoint record_calendars (calendars : list (string * FreeBusyCalendar))
    (freeBusy : gmap string FreeBusyCalendar) : outcome (gmap string FreeBusyCalendar) :=
  match calendars with
  | [] => Done freeBusy
  | (email, cal) :: rest =>
      freeBusy ← record_calendar freeBusy email cal;
      record_calendars rest freeBusy
  end.

Section FreeBusy.
Variable Query : nat -> list string -> option (list (string * FreeBusyCalendar)).
Variable resourcesInBuildingIndex : list CalendarResource.

(** [for start < len(resourcesInBuildingIndex)]. The result is how the
    goroutine ends and the requests it has made, in order; [None] is
    running out of fuel. *)
Fixpoint fetch_loop (fuel : nat) (start : nat) (freeBusy : gmap string FreeBusyCalendar)
    (requests : list (list string))
    : option (outcome (gmap string FreeBusyCalendar) * list (list string)) :=
  match fuel with
  | O => None
  | S fuel' =>
      if (start <? length resourcesInBuildingIndex)%nat then
        let end_ := (start + batchSize)%nat in
        let end_ := if (length resourcesInBuildingIndex <? end_)%nat
                    then length resourcesInBuildingIndex else end_ in
        let items := map ResourceEmail
                       (take (end_ - start) (drop start resourcesInBuildingIndex)) in
        match Query (length requests) items with
        | None => Some (Panic "freebusy query", requests ++ [items])
        | Some calendars =>
            match record_calendars calendars freeBusy with
            | Done freeBusy => fetch_loop fuel' end_ freeBusy (requests ++ [items])
            | stop => Some (stop, requests ++ [items])
            end
        end
      else Some (Done freeBusy, requests)
  end.

Definition fetchFreeBusy : option (outcome (gmap string FreeBusyCalendar) * list (list string)) :=
  fetch_loop (length resourcesInBuildingIndex + 1) 0 ∅ [].

End FreeBusy.

(** *** Rooms already booked (lines 279-296 of [main.go])

    [resourcesInBuildingIndex] is the catalog after [sort.Slice] has sorted
    it by [ResourceEmail]. Go compares strings byte by byte, as
    [String.leb] does. *)

Definition existingRoom (resourcesInBuildingIndex : list CalendarResource) (e : Event)
    : option CalendarResource :=
  foldl (fun (room : option CalendarResource) (a : EventAttendee) =>
           if negb (Resource a) || negb (String.eqb (ResponseStatus a) "accepted")
           then room
           else
             let i := sort.Search (length resourcesInBuildingIndex)
                        (fun i => match resourcesInBuildingIndex !! i with
                                  | Some r => String.leb (Email a) (ResourceEmail r)
                                  | None => false
                                  end) in
             if (i <? length resourcesInBuildingIndex)%nat then
               match resourcesInBuildingIndex !! i with
               | Some r =>
                   if negb (String.eqb (ResourceCategory r) "CONFERENCE_ROOM") then room
                   else Some r
               | None => room
               end
             else room)
        None (Attendees e).

(** [roomsImGoingTo] as the loop over [eventsImGoingTo] leaves it. *)
Definition existingRooms (resourcesInBuildingIndex : list CalendarResource)
    (eventsImGoingTo : list Event) : list (option CalendarResource) :=
  map (existingRoom resourcesInBuildingIndex) eventsImGoingTo.

(** The reading of the specification: the last accepted resource attendee
    whose email is the email of a conference room of the catalog. *)
Definition matches_room (a : EventAttendee) (r : CalendarResource) : bool :=
  Resource a && String.eqb (ResponseStatus a) "accepted" &&
  String.eqb (Email a) (ResourceEmail r) &&
  String.eqb (ResourceCategory r) "CONFERENCE_ROOM".

Definition has_booked_room (resourcesInBuildingIndex : list CalendarResource) (e : Event) : bool :=
  existsb (fun a => existsb (matches_room a) resourcesInBuildingIndex) (Attendees e).

(** *** The assignment pass (lines 316-444 of [main.go])

    The calls made to the calendar service, in order, are part of the
    state, and so is [roomsImGoingTo], which the pass reads at every event.
    [picks] is a record of what the pass did at each event it tried to find
    a room for, kept for stating properties; the program keeps none. *)

Inductive call : Type :=
  | Insert (calendarId : string) (event : Event)
  | Patch (calendarId : string) (eventId : string) (patch : Event).

Record pick : Type := mkPick {
  pick_index : nat;
  pick_prevRoom : option CalendarResource;
  pick_nextRoom : option CalendarResource;
  pick_room : option CalendarResource
}.

Record world : Type := mkWorld {
  eventsImGoingTo : list Event;
  roomsImGoingTo : list (option CalendarResource);
  calls : list call;
  picks : list pick
}.

(** State passing; the state reached is kept when the run ends early. *)
Definition M (A : Type) : Type := world -> outcome A * world.

#[global] Instance M_ret : MRet M := fun A a w => (Done a, w).
#[global] Instance M_bind : MBind M := fun A B k m w =>
  match m w with
  | (Done a, w') => k a w'
  | (Fatal msg, w') => (Fatal msg, w')
  | (Panic msg, w') => (Panic msg, w')
  end.

Definition lift {A} (o : outcome A) : M A := fun w => (o, w).

(** The zero [calendar.Event]; a composite literal leaves the fields it
    does not name at their zero value. *)
Definition zeroEvent : Event :=
  mkEvent "" "" "" (mkDateTime "") (mkDateTime "") [] false [] "" "" "" "" "" "" "".

(** [&calendar.EventAttendee{Email: room.ResourceEmail}] *)
Definition roomAttendee (room : CalendarResource) : EventAttendee :=
  mkAttendee (ResourceEmail room) false "" false.

(** The [hold] event of the "Create a new entry" branch. *)
Definition hold (event : Event) (room : CalendarResource) : Event :=
  {| Id := "";
     Summary := "Room for '" +:+ ReplaceAll (Summary event) roomTag roomTagDone +:+ "'";
     Description := ReplaceAll (Description event) roomTag roomTagDone;
     Start := Start event;
     End := End event;
     Attendees := [roomAttendee room];
     AttendeesOmitted := false;
     Attachments := Attachments event;
     ColorId := ColorId event;
     ConferenceData := ConferenceData event;
     HangoutLink := HangoutLink event;
     Location := Location event;
     Transparency := Transparency event;
     Visibility := Visibility event;
     Status := "" |}.

(** The patch that removes the room tag from the original entry. *)
Definition tag_patch (event : Event) : Event :=
  mkEvent "" (ReplaceAll (Summary event) roomTag roomTagDone)
    (ReplaceAll (Description event) roomTag roomTagDone)
    (mkDateTime "") (mkDateTime "") [] false [] "" "" "" "" "" "" "".

(** The patch that adds the room to the attendees of the original entry. *)
Definition attendee_patch (event : Event) (room : CalendarResource) : Event :=
  mkEvent "" "" "" (mkDateTime "") (mkDateTime "")
    (Attendees event ++ [roomAttendee room]) false [] "" "" "" "" "" "" "".

(** [event.Attendees = append(event.Attendees, roomAttendee)] *)
Definition with_room (event : Event) (room : CalendarResource) : Event :=
  mkEvent (Id event) (Summary event) (Description event) (Start event) (End event)
    (Attendees event ++ [roomAttendee room]) (AttendeesOmitted event)
    (Attachments event) (ColorId event) (ConferenceData event) (HangoutLink event)
    (Location event) (Transparency event) (Visibility event) (Status event).

Section Assign.
(** The flags [-dryrun], [-calendar], [-floor] and [-section]. *)
Variable dryRun : bool.
Variable calendarId : string.
Variable floor section : Z.
(** The catalog, sorted by email, and the free/busy map fetched before. *)
Variable resourcesInBuildingIndex : list CalendarResource.
Variable freeBusy : gmap string FreeBusyCalendar.
(** [time.Parse(time.RFC3339, _)] *)
Variable Parse : string -> option interval.Time.
(** [sort.Slice] on a slice of indices, given the comparison of two
    elements; the order it leaves equal elements in is not specified. *)
Variable sortSlice : (nat -> nat -> bool) -> list nat -> list nat.
(** Whether the calendar service carries out a call ([err == nil]), given
    the number of calls made before. *)
Variable Do : nat -> call -> bool.

(** [if !*dryRun { if _, err := <call>.Do(); err != nil { log.Fatal(err) } }] *)
Definition issue (c : call) : M unit := fun w =>
  if dryRun then (Done (), w)
  else
    let w' := mkWorld (eventsImGoingTo w) (roomsImGoingTo w) (calls w ++ [c]) (picks w) in
    if Do (length (calls w)) c then (Done (), w') else (Fatal "calendar service error", w').

Definition set_event (i : nat) (event : Event) : M unit := fun w =>
  (Done (), mkWorld (<[i := event]> (eventsImGoingTo w)) (roomsImGoingTo w) (calls w) (picks w)).

Definition note (p : pick) : M unit := fun w =>
  (Done (), mkWorld (eventsImGoingTo w) (roomsImGoingTo w) (calls w) (picks w ++ [p])).

(** "Book the room" *)
Definition book (i : nat) (event : Event) (room : CalendarResource) : M unit :=
  _ ← (if AttendeesOmitted event || Contains (Summary event) roomTag
          || Contains (Description event) roomTag
       then
         (* Create a new entry *)
         _ ← issue (Insert calendarId (hold event room));
         if negb (AttendeesOmitted event)
         then (* Remove room tag from original entry *)
              issue (Patch calendarId (Id event) (tag_patch event))
         else mret ()
       else
         (* Patch into existing entry *)
         issue (Patch calendarId (Id event) (attendee_patch event room)));
  set_event i (with_room event room).

(** [prefLoc], with [fmt.Sprintf("%d", _)] of the two flags. *)
Definition prefLoc : CalendarResource :=
  mkResource "" "" (pretty floor) (pretty section) "".

(** What the comparison given to [sort.Slice] computes for one room. *)
Definition rank_key (prevRoom nextRoom : option CalendarResource)
    (r : CalendarResource) : outcome Z :=
  match prevRoom, nextRoom with
  | None, None =>
      if (floor =? 0) || (section =? 0)
      then Fatal "must provide -floor and -section"
      else distance (Some prefLoc) (Some r)
  | _, _ =>
      d_prev ← distance prevRoom (Some r);
      d_next ← distance nextRoom (Some r);
      Done (min d_prev d_next)
  end.

(** The ranked list [idxs]. With fewer than two rooms [sort.Slice] never
    calls the comparison; with two or more every room is compared at least
    once, so the pass ends there if the comparison does for any room. *)
Definition rank (prevRoom nextRoom : option CalendarResource) : outcome (list nat) :=
  let idxs := seq 0 (length resourcesInBuildingIndex) in
  if (length resourcesInBuildingIndex <? 2)%nat then Done idxs
  else
    keys ← mapM (rank_key prevRoom nextRoom) resourcesInBuildingIndex;
    Done (sortSlice (fun i j => match keys !! i, keys !! j with
                               | Some ki, Some kj => ki <? kj
                               | _, _ => false
                               end) idxs).

(** [for _, timePeriod := range fb.Busy]: whether some busy period
    overlaps the event. *)
Fixpoint busy_during (event : Event) (busy : list TimePeriod) : outcome bool :=
  match busy with
  | [] => Done false
  | timePeriod :: rest =>
      e ← interval.OrDie Parse (DateTime (Start event)) (DateTime (End event));
      b ← interval.OrDie Parse (PeriodStart timePeriod) (PeriodEnd timePeriod);
      if interval.Overlaps e b then Done true else busy_during event rest
  end.

(** The loop labelled [rooms:], up to the room it books. *)
Fixpoint first_free (event : Event) (idxs : list nat) : outcome (option CalendarResource) :=
  match idxs with
  | [] => Done None
  | idx :: rest =>
      match resourcesInBuildingIndex !! idx with
      | None => Panic "index out of range"
      | Some room =>
          match freeBusy !! ResourceEmail room with
          | None => first_free event rest (* failed to find free/busy calendar *)
          | Some fb =>
              taken ← busy_during event (Busy fb);
              if (taken : bool) then first_free event rest else Done (Some room)
          end
      end
  end.

(** The body of [for i, r := range roomsImGoingTo]. *)
Definition visit (i : nat) : M unit := fun w =>
  match roomsImGoingTo w !! i, eventsImGoingTo w !! i with
  | Some r, Some event =>
      match r with
      | Some _ => (Done (), w)
      | None =>
          let prevRoom :=
            if (0 <? i)%nat then mjoin (roomsImGoingTo w !! (i - 1)%nat) else None in
          let nextRoom :=
            if (i <? length (roomsImGoingTo w) - 1)%nat then
              match roomsImGoingTo w !! (i + 1)%nat with
              | Some (Some next) => Some next
              | _ => None
              end
            else None in
          (idxs ← lift (rank prevRoom nextRoom);
           room ← lift (first_free event idxs);
           _ ← match room with
               | Some room => book i event room
               | None => mret ()
               end;
           note (mkPick i prevRoom nextRoom room)) w
      end
  | _, _ => (Panic "index out of range", w)
  end.

Fixpoint visit_all (indices : list nat) : M unit :=
  match indices with
  | [] => mret ()
  | i :: rest => _ ← visit i; visit_all rest
  end.

Definition assign : M unit := fun w =>
  visit_all (seq 0 (length (roomsImGoingTo w))) w.

End Assign.

(** On a short slice (at most 6 elements in every Go release, at most 12
    since Go 1.19) [sort.Slice] is this insertion sort:
    [[
    for i := a + 1; i < b; i++ {
        for j := i; j > a && less(j, j-1); j-- { swap(j, j-1) }
    }
    ]]
    [sink] works on the sorted prefix in reverse. *)
Fixpoint sink (less : nat -> nat -> bool) (x : nat) (before : list nat) : list nat :=
  match before with
  | y :: rest => if less x y then y :: sink less x rest else x :: before
  | [] => [x]
  end.

Definition insertionSort (less : nat -> nat -> bool) (l : list nat) : list nat :=
  rev (foldl (fun before x => sink less x before) [] l).

(** *** The events kept (the closure given to [ForEachEvent], lines 238-268
    of [main.go])

    [humans] counts attendees of one event; it stays far below the range of
    [int] and is a [nat]. [None] is the [return nil] from inside the loop. *)

Fixpoint count_humans (attendees : list EventAttendee) (humans : nat) : option nat :=
  match attendees with
  | [] => Some humans
  | a :: rest =>
      if Self a && (String.eqb (ResponseStatus a) "declined"
                    || String.eqb (ResponseStatus a) "needsAction")
      then None
      else if negb (Resource a) && negb (String.eqb (ResponseStatus a) "declined")
      then count_humans rest (S humans)
      else count_humans rest humans
  end.

(** One call of the closure: [eventsImGoingTo] after it. The closure
    always returns nil. *)
Definition collect (e : Event) (eventsImGoingTo : list Event) : list Event :=
  if String.eqb (DateTime (Start e)) "" then eventsImGoingTo (* all day event *)
  else if String.eqb (Status e) "cancelled" then eventsImGoingTo
  else if String.eqb (Transparency e) "transparent" then eventsImGoingTo
  else if Contains (Summary e) roomTag || Contains (Description e) roomTag
  then eventsImGoingTo ++ [e]
  else
    match count_humans (Attendees e) 0 with
    | None => eventsImGoingTo
    | Some humans => if (1 <? humans)%nat then eventsImGoingTo ++ [e] else eventsImGoingTo
    end.

(** [itercal.ForEachEvent] with that closure, from the answers of the
    calendar service: the error returned and [eventsImGoingTo]. *)
Definition eventsToGoTo (answers : list (string + list Event)) : option string * list Event :=
  itercal.ForEach answers (fun e eventsImGoingTo => (None, collect e eventsImGoingTo)) [].

End gocal.

(** * Properties *)

(** ** [sort.Search] *)

Import sort.

#[local] Arguments Nat.div : simpl never.

Lemma mid_bounds i j : (i < j)%nat -> (i <= (i + j) / 2 < j)%nat.
Proof.
  intros H. split.
  - apply Nat.div_le_lower_bound; lia.
  - apply Nat.Div0.div_lt_upper_bound; lia.
Qed.

(** What the loop guarantees for any predicate, monotone or not. *)
Lemma search_loop_spec fuel f i j :
  (j - i <= fuel)%nat -> (i <= j)%nat ->
  (i <= search_loop fuel f i j <= j)%nat /\
  (search_loop fuel f i j < j -> f (search_loop fuel f i j) = true)%nat /\
  (i < search_loop fuel f i j -> f (search_loop fuel f i j - 1)%nat = false)%nat.
Proof.
  revert i j. induction fuel as [|fuel IH]; intros i j Hfuel Hij; simpl.
  - assert (i = j) by lia. subst. split; [lia | split; intros; lia].
  - destruct (Nat.ltb_spec i j) as [Hlt|Hge].
    + set (h := ((i + j) / 2)%nat).
      assert (Hh : (i <= h < j)%nat) by (apply mid_bounds; lia).
      destruct (f h) eqn:Hfh; simpl.
      * destruct (IH i h) as (Hr & Ht & Hf); [lia | lia |].
        split; [lia | split].
        -- intros Hlt'. destruct (Nat.eq_dec (search_loop fuel f i h) h) as [He|Hne].
           ++ rewrite He. exact Hfh.
           ++ apply Ht. lia.
        -- exact Hf.
      * destruct (IH (h + 1)%nat j) as (Hr & Ht & Hf); [lia | lia |].
        split; [lia | split].
        -- exact Ht.
        -- intros _.
           destruct (Nat.eq_dec (search_loop fuel f (h + 1) j) (h + 1)%nat) as [He|Hne].
           ++ rewrite He. replace (h + 1 - 1)%nat with h by lia. exact Hfh.
           ++ apply Hf. lia.
    + assert (i = j) by lia. subst. split; [lia | split; intros; lia].
Qed.

(** The loop only ever calls [f] inside [[i, j)]. *)
Lemma search_loop_ext fuel f g i j :
  (forall k, (i <= k < j)%nat -> f k = g k) ->
  search_loop fuel f i j = search_loop fuel g i j.
Proof.
  revert i j. induction fuel as [|fuel IH]; intros i j Hfg; simpl; [done|].
  destruct (Nat.ltb_spec i j) as [Hlt|Hge]; [|done].
  set (h := ((i + j) / 2)%nat).
  assert (Hh : (i <= h < j)%nat) by (apply mid_bounds; lia).
  rewrite <- (Hfg h Hh).
  destruct (f h); simpl; apply IH; intros k Hk; apply Hfg; lia.
Qed.

Lemma Search_ext n f g :
  (forall k, (k < n)%nat -> f k = g k) -> Search n f = Search n g.
Proof. intros H. apply search_loop_ext. intros k Hk. apply H. lia. Qed.

Lemma Search_spec n f :
  (Search n f <= n)%nat /\
  (Search n f < n -> f (Search n f) = true)%nat /\
  (0 < Search n f -> f (Search n f - 1)%nat = false)%nat.
Proof.
  destruct (search_loop_spec n f 0 n) as (Hr & Ht & Hf); [lia | lia |].
  unfold Search. split; [lia | split; [exact Ht | exact Hf]].
Qed.

Lemma Search_monotone n f :
  monotone n f ->
  (forall k, (k < Search n f)%nat -> f k = false) /\
  (forall k, (Search n f <= k < n)%nat -> f k = true).
Proof.
  intros Hmono. destruct (Search_spec n f) as (Hle & Ht & Hf).
  set (r := Search n f) in *. split.
  - intros k Hk. destruct (f k) eqn:Hfk; [|done].
    assert (f (r - 1)%nat = true) by (apply (Hmono k); [lia | done]).
    rewrite Hf in H; [done | lia].
  - intros k Hk. apply (Hmono r); [lia | apply Ht; lia].
Qed.


(** ** Package [internal/interval] *)

Import interval.

Ltac unfold_Less :=
  unfold Less, Before, Equal in *;
  repeat match goal with
         | x : Interval |- _ => destruct x
         end;
  simpl in *;
  repeat match goal with
         | |- context [(?a <? ?b)] => destruct (Z.ltb_spec a b)
         | H : context [(?a <? ?b)] |- _ => destruct (Z.ltb_spec a b)
         | |- context [(?a =? ?b)] => destruct (Z.eqb_spec a b)
         | H : context [(?a =? ?b)] |- _ => destruct (Z.eqb_spec a b)
         end;
  simpl in *; try congruence; try lia.

Lemma Less_spec a b :
  Less a b = true <-> Start a < Start b \/ (Start a = Start b /\ End a < End b).
Proof. split; intros H; unfold_Less. Qed.

Lemma Less_irrefl a : Less a a = false.
Proof. unfold_Less. Qed.

Lemma Less_asym a b : Less a b = true -> Less b a = false.
Proof. unfold_Less. Qed.

Lemma Less_trans_le x y z : Less x y = true -> Less z y = false -> Less x z = true.
Proof. unfold_Less. Qed.

Lemma not_Less_trans a b c : Less b a = false -> Less c b = false -> Less c a = false.
Proof. unfold_Less. Qed.

(** "Not [Less] the other way round" as a relation, for [StronglySorted]. *)
Definition le_by_Less (a b : Interval) : Prop := Less b a = false.

Lemma StronglySorted_lookup {A} (R : relation A) (l : list A) i j a b :
  StronglySorted R l -> (i < j)%nat -> l !! i = Some a -> l !! j = Some b -> R a b.
Proof.
  intros Hs. revert i j. induction Hs as [|x l Hs IH Hall]; intros i j Hij Hi Hj.
  - by rewrite lookup_nil in Hi.
  - destruct j as [|j]; [lia|]. simpl in Hj. destruct i as [|i]; simpl in Hi.
    + injection Hi as ->. rewrite Forall_forall in Hall. apply Hall.
      by eapply list_elem_of_lookup_2.
    + apply (IH i j); [lia | done | done].
Qed.

Lemma lookup_StronglySorted {A} (R : relation A) (l : list A) :
  (forall i j a b, (i < j)%nat -> l !! i = Some a -> l !! j = Some b -> R a b) ->
  StronglySorted R l.
Proof.
  induction l as [|x l IH]; intros H; constructor.
  - apply IH. intros i j a b Hij Hi Hj. apply (H (S i) (S j)); [lia | done | done].
  - apply Forall_forall. intros y Hy. apply list_elem_of_lookup_1 in Hy as [k Hk].
    apply (H 0%nat (S k)); [lia | done | done].
Qed.

Lemma sorted_by_Less_StronglySorted l :
  sorted_by_Less l <-> StronglySorted le_by_Less l.
Proof.
  split.
  - intros H. apply lookup_StronglySorted. exact H.
  - intros H i j a b Hij Hi Hj.
    exact (StronglySorted_lookup le_by_Less l i j a b H Hij Hi Hj).
Qed.

Lemma IsSorted_sorted_by_Less l : IsSorted l = true <-> sorted_by_Less l.
Proof.
  rewrite sorted_by_Less_StronglySorted. split.
  - intros H. apply Sorted_StronglySorted.
    + intros a b c Hab Hbc. unfold le_by_Less in *. by eapply not_Less_trans.
    + induction l as [|a l IH]; [constructor|].
      destruct l as [|b l]; [by repeat constructor|].
      change (negb (Less b a) && IsSorted (b :: l) = true) in H.
      apply andb_true_iff in H as [Hab Hl]. constructor; [by apply IH|].
      constructor. unfold le_by_Less. by apply negb_true_iff.
  - intros H. apply StronglySorted_Sorted in H.
    induction l as [|a l IH]; [done|]. destruct l as [|b l]; [done|].
    inversion H as [|? ? Hs Hhd]; subst. inversion Hhd; subst.
    change (negb (Less b a) && IsSorted (b :: l) = true).
    apply andb_true_iff. split; [by apply negb_true_iff | by apply IH].
Qed.

(** [append], [copy] and the assignment insert [x] before index [i]. *)
Lemma insert_at_spec {A} (zero : A) (l : list A) (i : nat) (x : A) :
  (i <= length l)%nat -> insert_at zero l i x = Done (take i l ++ x :: drop i l).
Proof.
  intros Hi. unfold insert_at, copy_up. rewrite length_app. simpl.
  destruct (Nat.ltb_spec (length l + 1) (i + 1)) as [?|_]; [lia|]. f_equal.
  destruct (lookup_lt_is_Some_2 (l ++ [zero]) i) as [y Hy].
  { rewrite length_app. simpl. lia. }
  replace (i + 1)%nat with (S i) by lia.
  rewrite (take_S_r _ _ _ Hy), (take_app_le l [zero] i Hi).
  rewrite drop_app_le by done.
  replace (length l + 1 - S i)%nat with (length (drop i l)) by (rewrite length_drop; lia).
  rewrite take_app_length, <- app_assoc.
  rewrite insert_app_r_alt by (rewrite length_take; lia).
  rewrite length_take, Nat.min_l, Nat.sub_diag by lia. done.
Qed.

Lemma insert_at_panic {A} (zero : A) (l : list A) (i : nat) (x : A) :
  (length l < i)%nat -> insert_at zero l i x = Panic "slice bounds out of range".
Proof.
  intros Hi. unfold insert_at. rewrite length_app. simpl.
  destruct (Nat.ltb_spec (length l + 1) (i + 1)); [done | lia].
Qed.

Section MapFacts.
Context {T : Type} (zero : T).

(** The index [Add] inserts at. *)
Definition add_index (im : Map T) (s e : Time) : nat :=
  sort.Search (length (intervals im)) (at_index im (fun x => Less (mkInterval s e) x)).

Lemma add_index_le im s e : (add_index im s e <= length (intervals im))%nat.
Proof. unfold add_index. apply Search_spec. Qed.

Lemma Add_unfold (im : Map T) s e t :
  Add zero im s e t =
    (ivs ← insert_at zeroInterval (intervals im) (add_index im s e) (mkInterval s e);
     ds ← insert_at zero (data im) (add_index im s e) t;
     Done (mkMap ivs ds)).
Proof. reflexivity. Qed.

Lemma Add_spec (im : Map T) s e t :
  length (data im) = length (intervals im) ->
  Add zero im s e t =
    Done (mkMap (take (add_index im s e) (intervals im) ++
                   mkInterval s e :: drop (add_index im s e) (intervals im))
                (take (add_index im s e) (data im) ++
                   t :: drop (add_index im s e) (data im))).
Proof.
  intros Hlen. rewrite Add_unfold.
  pose proof (add_index_le im s e) as Hle.
  rewrite !insert_at_spec by lia. done.
Qed.

Lemma add_index_monotone (im : Map T) s e :
  sorted_by_Less (intervals im) ->
  sort.monotone (length (intervals im)) (at_index im (fun x => Less (mkInterval s e) x)).
Proof.
  intros Hs a b [Hab Hb]. unfold at_index.
  destruct (intervals im !! a) as [xa|] eqn:Ha; [|done].
  destruct (lookup_lt_is_Some_2 (intervals im) b Hb) as [xb Hxb]. rewrite Hxb.
  intros Hlt. destruct (Nat.eq_dec a b) as [->|Hne]; [congruence|].
  apply (Less_trans_le _ xa); [done|]. apply (Hs a b); [lia | done | done].
Qed.

Lemma Add_sorted (im im' : Map T) s e t :
  sorted_by_Less (intervals im) ->
  Add zero im s e t = Done im' ->
  sorted_by_Less (intervals im').
Proof.
  intros Hs. rewrite Add_unfold.
  pose proof (add_index_le im s e) as Hle.
  rewrite (insert_at_spec zeroInterval (intervals im)) by lia. simpl.
  destruct (insert_at zero (data im) _ t) as [ds| |]; simpl; [|done|done].
  intros [= <-]. simpl.
  destruct (Search_monotone _ _ (add_index_monotone im s e Hs)) as [Hbelow Habove].
  change (sort.Search _ _) with (add_index im s e) in Hbelow, Habove.
  set (r := add_index im s e) in *.
  apply sorted_by_Less_StronglySorted in Hs as Hss.
  rewrite <- (take_drop r (intervals im)) in Hss.
  apply StronglySorted_app in Hss as (Hcross & Hl & Hr).
  apply sorted_by_Less_StronglySorted, StronglySorted_app_2; [|done|].
  - intros x1 x2 Hx1 Hx2. apply elem_of_take in Hx1 as (k & Hk & Hkr).
    apply elem_of_cons in Hx2 as [->|Hx2].
    + specialize (Hbelow k Hkr). unfold at_index in Hbelow. by rewrite Hk in Hbelow.
    + apply Hcross; [|done]. apply elem_of_take. eauto.
  - constructor; [done|]. apply Forall_forall. intros x Hx.
    apply list_elem_of_lookup_1 in Hx as [k Hk]. rewrite lookup_drop in Hk.
    assert (r + k < length (intervals im))%nat by (by eapply lookup_lt_Some).
    specialize (Habove (r + k)%nat ltac:(lia)). unfold at_index in Habove.
    rewrite Hk in Habove. by apply Less_asym.
Qed.

(** What holds of every map built by [Add] calls alone. *)
Definition wf (im : Map T) : Prop :=
  length (data im) = length (intervals im) /\ sorted_by_Less (intervals im).

Lemma wf_empty : wf empty.
Proof. split; [done|]. intros i j a b _ Hi. simpl in Hi. by rewrite lookup_nil in Hi. Qed.

Lemma Add_wf (im : Map T) s e t :
  wf im -> exists im', Add zero im s e t = Done im' /\ wf im'.
Proof.
  intros [Hlen Hs]. eexists. split; [by apply Add_spec|]. split.
  - simpl. rewrite !length_app. simpl. rewrite !length_take, !length_drop. lia.
  - eapply Add_sorted; [exact Hs | by apply Add_spec].
Qed.

Lemma AddAll_wf (ops : list (Time * Time * T)) :
  exists im, AddAll zero ops = Done im /\ wf im.
Proof.
  unfold AddAll. induction ops as [|[[s e] t] ops IH] using rev_ind.
  - exists empty. split; [done | apply wf_empty].
  - rewrite foldl_snoc. destruct IH as (im & -> & Hwf). simpl. by apply Add_wf.
Qed.

End MapFacts.

Section CoveringFacts.
Context {T : Type}.

Lemma okFunc_contains (im : Map T) s e i x :
  intervals im !! i = Some x -> okFunc im s e i = contains x s e.
Proof.
  intros Hx. unfold okFunc, at_index, contains, Before. rewrite Hx.
  destruct (Z.ltb_spec s (Start x)), (Z.ltb_spec (End x) e),
    (Z.leb_spec (Start x) s), (Z.leb_spec e (End x)); simpl; try done; lia.
Qed.

(** With [data] as long as [intervals], no read of the loop is out of
    range. *)
Lemma covering_loop_returns (im : Map T) s e fuel i ret :
  length (data im) = length (intervals im) ->
  exists vs, covering_loop fuel im s e i ret = Done vs.
Proof.
  intros Hlen. revert i ret. induction fuel as [|fuel IH]; intros i ret; simpl; [eauto|].
  destruct (Nat.ltb_spec i (length (intervals im))) as [Hi|_]; [|eauto].
  destruct (okFunc im s e i); simpl; [|eauto].
  destruct (lookup_lt_is_Some_2 (data im) i) as [v ->]; [lia | apply IH].
Qed.

Lemma Covering_returns (im : Map T) s e :
  length (data im) = length (intervals im) ->
  exists vs, Covering im s e = Done vs.
Proof.
  intros Hlen. unfold Covering. destruct (_ =? _)%nat; [eauto|].
  by apply covering_loop_returns.
Qed.

(** A value is stored under an interval that contains [[s, e)]. *)
Definition stored_containing (im : Map T) (s e : Time) (v : T) : Prop :=
  exists k x, intervals im !! k = Some x /\ data im !! k = Some v /\ contains x s e = true.

Lemma covering_loop_sound (im : Map T) s e fuel i ret vs :
  Forall (stored_containing im s e) ret ->
  covering_loop fuel im s e i ret = Done vs ->
  Forall (stored_containing im s e) vs.
Proof.
  revert i ret. induction fuel as [|fuel IH]; intros i ret Hret; simpl.
  - by intros [= <-].
  - destruct (Nat.ltb_spec i (length (intervals im))) as [Hi|_]; [|by intros [= <-]].
    destruct (okFunc im s e i) eqn:Hok; simpl; [|by intros [= <-]].
    destruct (data im !! i) as [v|] eqn:Hv; [|done].
    apply IH. apply Forall_app. split; [done|]. constructor; [|done].
    destruct (lookup_lt_is_Some_2 (intervals im) i Hi) as [x Hx].
    exists i, x. by rewrite <- (okFunc_contains im s e i x Hx).
Qed.

(** Whatever [Covering] returns is stored under a containing interval. *)
Lemma Covering_sound (im : Map T) s e vs :
  Covering im s e = Done vs -> Forall (stored_containing im s e) vs.
Proof.
  unfold Covering. destruct (_ =? _)%nat.
  - by intros [= <-].
  - by apply covering_loop_sound.
Qed.

(** When every interval from index [i] on contains the range, the loop
    returns all their values. *)
Lemma covering_loop_all (im : Map T) s e fuel i ret :
  length (data im) = length (intervals im) ->
  (forall k, (i <= k < length (intervals im))%nat -> okFunc im s e k = true) ->
  (length (intervals im) - i <= fuel)%nat ->
  covering_loop fuel im s e i ret = Done (ret ++ drop i (data im)).
Proof.
  intros Hlen. revert i ret. induction fuel as [|fuel IH]; intros i ret Hok Hfuel; simpl.
  - rewrite drop_ge by lia. by rewrite app_nil_r.
  - destruct (Nat.ltb_spec i (length (intervals im))) as [Hi|Hi].
    + rewrite Hok by lia. simpl.
      destruct (lookup_lt_is_Some_2 (data im) i) as [v Hv]; [lia|]. rewrite Hv.
      rewrite IH; [|intros k Hk; apply Hok; lia | lia].
      rewrite <- app_assoc. simpl. f_equal.
      rewrite (drop_S _ _ _ Hv). by replace (i + 1)%nat with (S i) by lia.
    + rewrite drop_ge by lia. by rewrite app_nil_r.
Qed.

Lemma filter_from {A} (P : A -> bool) (l : list A) (r : nat) :
  (forall k x, (k < r)%nat -> l !! k = Some x -> P x = false) ->
  (forall k x, (r <= k)%nat -> l !! k = Some x -> P x = true) ->
  List.filter P l = drop r l.
Proof.
  revert r. induction l as [|y l IH]; intros r Hlow Hhigh; [by destruct r|].
  destruct r as [|r]; simpl.
  - rewrite (Hhigh 0%nat y) by (done || lia). f_equal.
    rewrite (IH 0%nat); [done | intros; lia |].
    intros k x _ Hk. apply (Hhigh (S k)); [lia | done].
  - rewrite (Hlow 0%nat y) by (done || lia). apply IH.
    + intros k x Hk Hx. apply (Hlow (S k)); [lia | done].
    + intros k x Hk Hx. apply (Hhigh (S k)); [lia | done].
Qed.

(** [Covering] is exact on the maps and queries for which containment,
    once true, stays true along the stored order: the assumption its
    binary search makes. *)
Lemma Covering_exact_when_monotone (im : Map T) s e :
  length (data im) = length (intervals im) ->
  sort.monotone (length (intervals im)) (okFunc im s e) ->
  Covering im s e = Done (covering_spec im s e).
Proof.
  intros Hlen Hmono.
  destruct (Search_monotone _ _ Hmono) as [Hlow Hhigh].
  pose proof (Search_spec (length (intervals im)) (okFunc im s e)) as [Hle _].
  unfold Covering, covering_spec. set (r := sort.Search _ _) in *.
  rewrite (filter_from _ _ r).
  - rewrite <- skipn_map. rewrite snd_zip by lia.
    destruct (Nat.eqb_spec r (length (intervals im))) as [Hr|Hr].
    + by rewrite drop_ge by lia.
    + by rewrite covering_loop_all.
  - intros k [x v] Hk Hkx. apply lookup_zip_with_Some in Hkx as (? & ? & [= <- <-] & Hx & _).
    simpl. rewrite <- (okFunc_contains im s e k x Hx). by apply Hlow.
  - intros k [x v] Hk Hkx.
    apply lookup_zip_with_Some in Hkx as (? & ? & [= <- <-] & Hx & _).
    simpl. rewrite <- (okFunc_contains im s e k x Hx). apply Hhigh.
    split; [done|]. by eapply lookup_lt_Some.
Qed.

End CoveringFacts.

(** C7. After any sequence of [Add] calls on the zero map, the stored
    intervals are sorted according to [Less]: every call returns, and in the
    map reached no interval is [Less] than one stored before it (which is
    also what [sort.IsSorted] checks); [Less] is the lexicographic order on
    start, then end. *)
Theorem Add_keeps_intervals_sorted {T} (zero : T) (ops : list (Time * Time * T)) :
  exists im, AddAll zero ops = Done im /\
    sorted_by_Less (intervals im) /\ IsSorted (intervals im) = true /\
    (forall a b, Less a b = true <->
       Start a < Start b \/ (Start a = Start b /\ End a < End b)).
Proof.
  destruct (AddAll_wf zero ops) as (im & Him & _ & Hs).
  exists im. split; [done|]. split; [done|].
  split; [by apply IsSorted_sorted_by_Less | apply Less_spec].
Qed.

(** C10. On a map reached by [Add] calls, one more [Add] returns, makes
    [intervals] and [data] each one element longer and leaves them of equal
    length; the new interval and its value sit at the same index [i], with
    the pairs stored before unchanged around them; and [Covering] on the
    result reads no index out of range. *)
Theorem Add_grows_both_slices_aligned {T} (zero : T)
    (ops : list (Time * Time * T)) (s e : Time) (t : T) (qs qe : Time) :
  exists im im' i vs,
    AddAll zero ops = Done im /\
    Add zero im s e t = Done im' /\
    length (intervals im') = S (length (intervals im)) /\
    length (data im') = S (length (data im)) /\
    length (intervals im') = length (data im') /\
    intervals im' !! i = Some (mkInterval s e) /\
    data im' !! i = Some t /\
    zip (intervals im') (data im') =
      take i (zip (intervals im) (data im)) ++
      (mkInterval s e, t) :: drop i (zip (intervals im) (data im)) /\
    Covering im' qs qe = Done vs.
Proof.
  destruct (AddAll_wf zero ops) as (im & Him & Hlen & Hs).
  pose proof (add_index_le im s e) as Hle.
  set (i := add_index im s e) in *.
  set (im' := mkMap (take i (intervals im) ++ mkInterval s e :: drop i (intervals im))
                    (take i (data im) ++ t :: drop i (data im))).
  assert (Hlen' : length (data im') = length (intervals im')).
  { simpl. rewrite !length_app. simpl. rewrite !length_take, !length_drop. lia. }
  destruct (Covering_returns im' qs qe Hlen') as [vs Hvs].
  exists im, im', i, vs. split; [done|]. split; [by apply Add_spec|].
  split; [|split; [|split; [|split; [|split; [|split]]]]]; try done.
  - simpl. rewrite length_app. simpl. rewrite length_take, length_drop. lia.
  - simpl. rewrite length_app. simpl. rewrite length_take, length_drop. lia.
  - simpl. rewrite lookup_app_r by (rewrite length_take; lia).
    rewrite length_take, Nat.min_l, Nat.sub_diag by lia. done.
  - simpl. rewrite lookup_app_r by (rewrite length_take; lia).
    rewrite length_take, Nat.min_l, Nat.sub_diag by lia. done.
  - simpl. rewrite zip_with_app by (rewrite !length_take; lia). simpl.
    by rewrite zip_with_take, zip_with_drop.
Qed.

(** C1, at the input where the code departs from it. After
    [Add(0, 10, "a")] and [Add(5, 6, "b")], the interval [[0, 10)] contains
    [[0, 1)], so the values the claim asks for are ["a"]; [Covering(0, 1)]
    returns no value: the binary search probes index 1 first, finds
    [[5, 6)] not containing the range and looks no further down. *)
Theorem Covering_misses_a_containing_interval :
  exists im : Map string,
    AddAll ""%string [(0, 10, "a"%string); (5, 6, "b"%string)] = Done im /\
    intervals im = [mkInterval 0 10; mkInterval 5 6] /\
    data im = ["a"%string; "b"%string] /\
    covering_spec im 0 1 = ["a"%string] /\
    Covering im 0 1 = Done [].
Proof. eexists. repeat split; reflexivity. Qed.

(** ** Package [internal/batch] *)

Section UpFacts.
Context {T : Type}.
Implicit Types (pending batch values : list T) (sent : list (list T)).

Lemma Up_loop_spec sched fuel tick pending batch sent :
  (batch.turns_left pending batch <= fuel)%nat ->
  Forall (fun b => b <> []) sent ->
  exists out,
    batch.Up_loop fuel sched tick pending batch sent = Some out /\
    concat out = concat sent ++ batch ++ pending /\
    Forall (fun b => b <> []) out.
Proof.
  revert tick pending batch sent.
  induction fuel as [|fuel IH]; intros tick pending batch sent Hfuel Hsent;
    unfold batch.turns_left in *; [lia|].
  assert (Hsnoc : forall b : list T, (0 < length b)%nat ->
            Forall (fun b => b <> []) (sent ++ [b])).
  { intros b Hb. apply Forall_app. split; [done|]. constructor; [|done].
    intros ->. simpl in Hb. lia. }
  simpl. destruct (sched tick).
  - destruct pending as [|v rest]; simpl.
    + destruct (Nat.ltb_spec 0 (length batch)) as [Hb|Hb].
      * eexists. split; [done|]. split; [|by apply Hsnoc].
        rewrite concat_app. simpl. by rewrite !app_nil_r.
      * eexists. split; [done|]. split; [|done].
        destruct batch; [|simpl in Hb; lia]. by rewrite !app_nil_r.
    + destruct (IH (S tick) rest (batch ++ [v]) sent) as (out & Hrun & Hcat & Hne);
        [|done|].
      { rewrite length_app. simpl in *.
        destruct (Nat.ltb_spec 0 (length batch + 1)); lia. }
      exists out. split; [done|]. split; [|done].
      rewrite Hcat, <- !app_assoc. done.
  - destruct (Nat.ltb_spec 0 (length batch)) as [Hb|Hb].
    + destruct (IH (S tick) pending [] (sent ++ [batch])) as (out & Hrun & Hcat & Hne);
        [simpl; lia | by apply Hsnoc |].
      exists out. split; [done|]. split; [|done].
      rewrite Hcat, concat_app. simpl. by rewrite app_nil_r, <- app_assoc.
    + destruct batch; [|simpl in Hb; lia].
      destruct pending as [|v rest]; simpl.
      * eexists. split; [done|]. split; [|done]. by rewrite !app_nil_r.
      * destruct (IH (S tick) rest [v] sent) as (out & Hrun & Hcat & Hne);
          [simpl in *; lia | done |].
        exists out. split; [done|]. split; [|done]. by rewrite Hcat.
Qed.

End UpFacts.

(** C4. For every finite sequence of values and every schedule of the
    producer, [Up] returns after at most [2 * len + 1] turns of its loop,
    the batches it has sent, concatenated in order, are the values in
    order, and no batch is empty. *)
Theorem Up_batches_concat_to_input {T} (sched : nat -> bool) (values : list T)
    (extra : nat) :
  exists out,
    batch.Up (2 * length values + 1 + extra) sched values = Some out /\
    concat out = values /\
    Forall (fun b => b <> []) out.
Proof.
  destruct (Up_loop_spec sched (2 * length values + 1 + extra) 0 values [] [])
    as (out & Hrun & Hcat & Hne); [unfold batch.turns_left; simpl; lia | done |].
  exists out. split; [done|]. split; [by rewrite Hcat|done].
Qed.

(** A producer that has five values ready, falls behind at the fourth
    [select], and has closed the channel by the time it is looked at again. *)
Example Up_two_batches :
  batch.Up 11 (fun n => negb (n =? 3)%nat) [1; 2; 3; 4; 5] = Some [[1; 2; 3]; [4; 5]].
Proof. reflexivity. Qed.

(** A producer that is never ahead: every value is waited for and sent on
    its own. *)
Example Up_slow_producer :
  batch.Up 7 (fun _ => false) [1; 2; 3] = Some [[1]; [2]; [3]].
Proof. reflexivity. Qed.

(** ** Package [internal/itercal] *)

(** The scores [[50.0, 2.0, 1.0]] as three hits. *)
Definition three_hits : itercal.SearchResult :=
  itercal.mkResult 3
    [itercal.mkHit "top" 50%float; itercal.mkHit "second" 2%float;
     itercal.mkHit "third" 1%float].

(** C3 as stated fails: on [[50.0, 2.0, 1.0]] the scorer does not accept
    the top hit. *)
Lemma confidenceInFirst_50_2_1_not_accepted :
  itercal.confidenceInFirst [50%float; 2%float; 1%float] <> Done true /\
  itercal.SearchBuildings three_hits <> Done (itercal.BuildingID "top").
Proof. split; vm_compute; discriminate. Qed.

(** C3, amended. On [[50.0, 2.0, 1.0]] the mean is [53/3] and the z-score
    of the top score against the mean and the sample standard deviation of
    the three scores is about 1.1545 (between 1.125 and 1.25), which is not
    above the threshold 2.0:
    the scorer rejects the top hit and [SearchBuildings] reports three
    buildings found. *)
Theorem confidenceInFirst_50_2_1_rejected :
  PrimFloat.ltb 1.125%float (itercal.firstScore 50%float [50%float; 2%float; 1%float]) = true /\
  PrimFloat.ltb (itercal.firstScore 50%float [50%float; 2%float; 1%float]) 1.25%float = true /\
  itercal.confidenceInFirst [50%float; 2%float; 1%float] = Done false /\
  itercal.SearchBuildings three_hits = Done (itercal.BuildingsFound 3).
Proof. repeat split; vm_compute; reflexivity. Qed.

(** ** Package [main]: [distance] *)

Import gostd.

Section DistanceFacts.
Import gocal.

Lemma wrap_range z : MinInt <= wrap z <= MaxInt.
Proof.
  unfold wrap, MinInt, MaxInt.
  pose proof (Z.mod_pos_bound (z + 2 ^ 63) (2 ^ 64) ltac:(lia)). lia.
Qed.

Lemma wrap_small z : MinInt <= z <= MaxInt -> wrap z = z.
Proof.
  unfold wrap, MinInt, MaxInt. intros H. rewrite Z.mod_small; lia.
Qed.

Lemma wrap_congruent z : exists k, wrap z = z + k * 2 ^ 64.
Proof.
  exists (- ((z + 2 ^ 63) / 2 ^ 64)). unfold wrap.
  pose proof (Z.div_mod (z + 2 ^ 63) (2 ^ 64) ltac:(lia)). lia.
Qed.

(** [abs(f1-f2)] and [abs(f2-f1)] agree, also when the subtraction or the
    negation overflows. *)
Lemma abs_sub_comm x y : abs (sub x y) = abs (sub y x).
Proof.
  unfold abs, neg, sub.
  destruct (wrap_congruent (x - y)) as [k Hk], (wrap_congruent (y - x)) as [k' Hk'].
  pose proof (wrap_range (x - y)) as R1. pose proof (wrap_range (y - x)) as R2.
  destruct (wrap_congruent (- wrap (x - y))) as [m Hm].
  destruct (wrap_congruent (- wrap (y - x))) as [m' Hm'].
  pose proof (wrap_range (- wrap (x - y))) as R3.
  pose proof (wrap_range (- wrap (y - x))) as R4.
  unfold MinInt, MaxInt in *.
  destruct (Z.ltb_spec (wrap (x - y)) 0), (Z.ltb_spec (wrap (y - x)) 0); lia.
Qed.

Lemma distance_parsed r1 r2 f1 s1 f2 s2 :
  ParseInt (FloorName r1) = Some f1 -> ParseInt (FloorSection r1) = Some s1 ->
  ParseInt (FloorName r2) = Some f2 -> ParseInt (FloorSection r2) = Some s2 ->
  distance (Some r1) (Some r2) =
    Done (let d := if negb (f1 =? f2)
                   then add (add 0 firstChangeOfFloor)
                            (mul (sub (abs (sub f1 f2)) 1) subsequentChangeOfFloor)
                   else 0 in
          if negb (s1 =? s2)
          then add (add d firstChangeOfSection)
                   (mul (sub (abs (sub s1 s2)) 1) subsequentChangeOfSection)
          else d).
Proof.
  intros Hf1 Hs1 Hf2 Hs2. unfold distance, intOrDie.
  rewrite Hf1, Hf2, Hs1, Hs2. reflexivity.
Qed.

Lemma abs_sub_two a b : Z.abs (a - b) = 2 -> abs (sub a b) = 2.
Proof.
  intros H. unfold abs, neg, sub.
  assert (a - b = 2 \/ a - b = -2) as [->| ->] by lia; reflexivity.
Qed.

Lemma abs_sub_one a b : Z.abs (a - b) = 1 -> abs (sub a b) = 1.
Proof.
  intros H. unfold abs, neg, sub.
  assert (a - b = 1 \/ a - b = -1) as [->| ->] by lia; reflexivity.
Qed.

End DistanceFacts.

(** C8. For rooms whose floor and section names are integers:
    the distance between rooms on the same floor and section (a room and
    itself among them) is 0; [distance] is symmetric; a nil operand on
    either side gives [math.MaxInt]; and with equal sections, rooms two
    floors apart are strictly farther than rooms one floor apart. *)
Theorem distance_properties (r1 r2 r3 r4 : gocal.CalendarResource)
    (f1 s1 f2 s2 f3 s3 f4 s4 : Z) :
  ParseInt (gocal.FloorName r1) = Some f1 -> ParseInt (gocal.FloorSection r1) = Some s1 ->
  ParseInt (gocal.FloorName r2) = Some f2 -> ParseInt (gocal.FloorSection r2) = Some s2 ->
  ParseInt (gocal.FloorName r3) = Some f3 -> ParseInt (gocal.FloorSection r3) = Some s3 ->
  ParseInt (gocal.FloorName r4) = Some f4 -> ParseInt (gocal.FloorSection r4) = Some s4 ->
  gocal.distance (Some r1) (Some r1) = Done 0 /\
  (f1 = f2 -> s1 = s2 -> gocal.distance (Some r1) (Some r2) = Done 0) /\
  gocal.distance (Some r1) (Some r2) = gocal.distance (Some r2) (Some r1) /\
  gocal.distance None (Some r1) = Done MaxInt /\
  gocal.distance (Some r1) None = Done MaxInt /\
  (s1 = s2 -> s3 = s4 -> Z.abs (f1 - f2) = 2 -> Z.abs (f3 - f4) = 1 ->
   exists d12 d34,
     gocal.distance (Some r1) (Some r2) = Done d12 /\
     gocal.distance (Some r3) (Some r4) = Done d34 /\
     d34 < d12).
Proof.
  intros Hf1 Hs1 Hf2 Hs2 Hf3 Hs3 Hf4 Hs4.
  split; [|split; [|split; [|split; [|split]]]].
  - rewrite (distance_parsed r1 r1 f1 s1 f1 s1) by done.
    by rewrite !Z.eqb_refl.
  - intros -> ->. rewrite (distance_parsed r1 r2 f2 s2 f2 s2) by done.
    by rewrite !Z.eqb_refl.
  - rewrite (distance_parsed r1 r2 f1 s1 f2 s2), (distance_parsed r2 r1 f2 s2 f1 s1) by done.
    rewrite (Z.eqb_sym f2 f1), (Z.eqb_sym s2 s1).
    by rewrite (abs_sub_comm f2 f1), (abs_sub_comm s2 s1).
  - reflexivity.
  - reflexivity.
  - intros -> -> H12 H34.
    rewrite (distance_parsed r1 r2 f1 s2 f2 s2), (distance_parsed r3 r4 f3 s4 f4 s4) by done.
    rewrite !Z.eqb_refl. simpl.
    destruct (Z.eqb_spec f1 f2) as [->|_]; [lia|].
    destruct (Z.eqb_spec f3 f4) as [->|_]; [lia|]. simpl.
    rewrite (abs_sub_two f1 f2 H12), (abs_sub_one f3 f4 H34).
    eexists _, _. split; [reflexivity|]. split; [reflexivity|]. vm_compute. reflexivity.
Qed.

Definition room_1_1 : gocal.CalendarResource := gocal.mkResource "a@x" "CONFERENCE_ROOM" "1" "1" "A".
Definition room_3_1 : gocal.CalendarResource := gocal.mkResource "b@x" "CONFERENCE_ROOM" "3" "1" "B".
Definition room_4_2 : gocal.CalendarResource := gocal.mkResource "c@x" "CONFERENCE_ROOM" "4" "2" "C".
Definition room_5_2 : gocal.CalendarResource := gocal.mkResource "d@x" "CONFERENCE_ROOM" "5" "2" "D".

(** C8 at rooms on floors 1 and 3, section 1, and on floors 4 and 5,
    section 2. *)
Lemma distance_properties_witness :
  gocal.distance (Some room_1_1) (Some room_1_1) = Done 0 /\
  (1 = 3 -> 1 = 1 -> gocal.distance (Some room_1_1) (Some room_3_1) = Done 0) /\
  gocal.distance (Some room_1_1) (Some room_3_1) = gocal.distance (Some room_3_1) (Some room_1_1) /\
  gocal.distance None (Some room_1_1) = Done MaxInt /\
  gocal.distance (Some room_1_1) None = Done MaxInt /\
  (1 = 1 -> 2 = 2 -> Z.abs (1 - 3) = 2 -> Z.abs (4 - 5) = 1 ->
   exists d12 d34,
     gocal.distance (Some room_1_1) (Some room_3_1) = Done d12 /\
     gocal.distance (Some room_4_2) (Some room_5_2) = Done d34 /\
     d34 < d12).
Proof.
  apply (distance_properties room_1_1 room_3_1 room_4_2 room_5_2 1 1 3 1 4 2 5 2);
    reflexivity.
Defined.

(** ** Package [main]: the free/busy bulk-fetch loop *)

Section FreeBusyFacts.
Import gocal.

(** A calendar carries an error whose reason is not "notFound". *)
Definition other_error (cal : FreeBusyCalendar) : bool :=
  existsb (fun e => negb (String.eqb (Reason e) "notFound")) (Errors cal).

Lemma scan_errors_spec errors notFound :
  scan_errors errors notFound =
    if existsb (fun e => negb (String.eqb (Reason e) "notFound")) errors
    then Fatal "freebusy"
    else Done (notFound || (0 <? length errors)%nat).
Proof.
  revert notFound. induction errors as [|e errors IH]; intros notFound; simpl.
  - by rewrite orb_false_r.
  - destruct (String.eqb (Reason e) "notFound"); simpl; [|done].
    rewrite IH. destruct (existsb _ errors); [done|]. by rewrite orb_true_r.
Qed.

Lemma record_calendar_spec freeBusy email cal :
  record_calendar freeBusy email cal =
    if other_error cal then Fatal "freebusy"
    else if (0 <? length (Errors cal))%nat then Done freeBusy
    else Done (<[email := cal]> freeBusy).
Proof.
  unfold record_calendar, other_error. rewrite scan_errors_spec.
  destruct (Errors cal) as [|e errors]; [done|].
  destruct (existsb _ (e :: errors)); done.
Qed.

Lemma record_calendars_spec calendars freeBusy :
  (exists freeBusy', record_calendars calendars freeBusy = Done freeBusy' /\
     Forall (fun p => other_error p.2 = false) calendars) \/
  (record_calendars calendars freeBusy = Fatal "freebusy" /\
     Exists (fun p => other_error p.2 = true) calendars).
Proof.
  revert freeBusy. induction calendars as [|[email cal] calendars IH]; intros freeBusy; simpl.
  - left. eauto.
  - rewrite record_calendar_spec. destruct (other_error cal) eqn:Hcal.
    + right. split; [done|]. by left.
    + assert (Hnext : forall fb,
        (exists freeBusy', record_calendars calendars fb = Done freeBusy' /\
           Forall (fun p => other_error p.2 = false) ((email, cal) :: calendars)) \/
        (record_calendars calendars fb = Fatal "freebusy" /\
           Exists (fun p => other_error p.2 = true) ((email, cal) :: calendars))).
      { intros fb. destruct (IH fb) as [(fb' & Hrun & Hall)|[Hrun Hex]].
        - left. exists fb'. split; [done|]. by constructor.
        - right. split; [done|]. by right. }
      destruct (0 <? length (Errors cal))%nat; apply Hnext.
Qed.

Variable Query : nat -> list string -> option (list (string * FreeBusyCalendar)).
Variable resources : list CalendarResource.

(** The [k]-th group of at most 20 emails. *)
Definition chunk (k : nat) : list string :=
  map ResourceEmail (take 20 (drop (20 * k) resources)).

Definition requests_are_chunks (requests : list (list string)) : Prop :=
  forall k req, requests !! k = Some req ->
    req = chunk k /\ (1 <= length req <= 20)%nat.

(** No response seen so far carried an error other than "notFound". *)
Definition responses_clean (requests : list (list string)) : Prop :=
  forall k req calendars, requests !! k = Some req -> Query k req = Some calendars ->
    Forall (fun p => other_error p.2 = false) calendars.

Definition fetch_post (res : outcome (gmap string FreeBusyCalendar))
    (requests : list (list string)) : Prop :=
  requests_are_chunks requests /\
  (forall freeBusy, res = Done freeBusy ->
     concat requests = map ResourceEmail resources) /\
  (forall k req calendars email cal,
     requests !! k = Some req -> Query k req = Some calendars ->
     (email, cal) ∈ calendars -> other_error cal = true ->
     res = Fatal "freebusy").

Lemma fetch_loop_spec fuel start freeBusy requests :
  (length resources - start < fuel)%nat ->
  (start <= length resources)%nat ->
  (start < length resources -> start = 20 * length requests)%nat ->
  requests_are_chunks requests ->
  responses_clean requests ->
  concat requests = map ResourceEmail (take start resources) ->
  exists res requests',
    fetch_loop Query resources fuel start freeBusy requests = Some (res, requests') /\
    fetch_post res requests'.
Proof.
  revert start freeBusy requests.
  induction fuel as [|fuel IH]; intros start freeBusy requests Hfuel Hle Hstart Hchunks Hclean Hcat;
    [lia|].
  simpl. destruct (Nat.ltb_spec start (length resources)) as [Hlt|Hge].
  - set (end_ := if (length resources <? start + batchSize)%nat
                 then length resources else (start + batchSize)%nat).
    set (items := map ResourceEmail (take (end_ - start) (drop start resources))).
    assert (Hend : (start < end_ <= length resources /\ end_ - start <= 20)%nat).
    { subst end_. unfold batchSize.
      destruct (Nat.ltb_spec (length resources) (start + 20)); lia. }
    assert (Hitems : items = chunk (length requests)).
    { subst items. unfold chunk. rewrite <- (Hstart Hlt). f_equal.
      subst end_. unfold batchSize.
      destruct (Nat.ltb_spec (length resources) (start + 20)) as [Hshort|Hfull].
      - rewrite !take_ge; [done | rewrite length_drop; lia | rewrite length_drop; lia].
      - f_equal. lia. }
    assert (Hlen : length items = (end_ - start)%nat).
    { subst items. rewrite length_map, length_take, length_drop. lia. }
    assert (Hchunks' : requests_are_chunks (requests ++ [items])).
    { intros k req Hk. apply lookup_app_Some in Hk as [Hk|[Hk1 Hk2]]; [by apply Hchunks|].
      apply list_lookup_singleton_Some in Hk2 as [Hk2 <-].
      replace k with (length requests) by lia. split; [done|lia]. }
    destruct (Query (length requests) items) as [calendars|] eqn:HQ.
    + destruct (record_calendars_spec calendars freeBusy)
        as [(freeBusy' & Hrun & Hall)|[Hrun Hex]]; rewrite Hrun.
      * apply IH; [lia | lia | | done | |].
        -- intros Hlt'. rewrite length_app. simpl.
           subst end_. unfold batchSize in *.
           destruct (Nat.ltb_spec (length resources) (start + 20)); lia.
        -- intros k req cals Hk Hcals.
           apply lookup_app_Some in Hk as [Hk|[Hk1 Hk2]]; [by eapply Hclean|].
           apply list_lookup_singleton_Some in Hk2 as [Hk2 <-].
           assert (k = length requests) as -> by lia. congruence.
        -- rewrite concat_app, Hcat. simpl. rewrite app_nil_r. subst items.
           rewrite <- map_app. f_equal.
           rewrite <- (take_drop start (take end_ resources)).
           rewrite take_take, Nat.min_l by lia. f_equal.
           by rewrite skipn_firstn_comm.
      * eexists _, _. split; [done|]. split; [done|]. split; [done|]. done.
    + eexists _, _. split; [done|]. split; [done|]. split; [done|].
      intros k req cals email cal Hk Hcals Hin Hother.
      apply lookup_app_Some in Hk as [Hk|[Hk1 Hk2]].
      * specialize (Hclean k req cals Hk Hcals). rewrite Forall_forall in Hclean.
        specialize (Hclean _ Hin). simpl in Hclean. congruence.
      * apply list_lookup_singleton_Some in Hk2 as [Hk2 <-].
        assert (k = length requests) as -> by lia. congruence.
  - eexists _, _. split; [done|]. split; [done|]. split.
    + intros fb _. rewrite Hcat. by rewrite take_ge by lia.
    + intros k req cals email cal Hk Hcals Hin Hother.
      specialize (Hclean k req cals Hk Hcals). rewrite Forall_forall in Hclean.
      specialize (Hclean _ Hin). simpl in Hclean. congruence.
Qed.

End FreeBusyFacts.

(** C9. The free/busy loop always ends; its request number [k] (from 0)
    carries the
    emails of resources [20k] to [20k + 19] (fewer in the last request, never
    none); when it ends normally every resource has been queried once, in
    order. For each returned calendar: an error with a reason other than
    "notFound" ends the run by [os.Exit(1)]; otherwise a calendar with
    (only "notFound") errors leaves the free/busy map as it was, and a
    calendar without errors is stored under its email. *)
Theorem freebusy_fetch_chunks_and_errors
    (Query : nat -> list string -> option (list (string * gocal.FreeBusyCalendar)))
    (resources : list gocal.CalendarResource) :
  exists res requests,
    gocal.fetchFreeBusy Query resources = Some (res, requests) /\
    (forall k req, requests !! k = Some req ->
       req = map gocal.ResourceEmail (take 20 (drop (20 * k) resources)) /\
       (1 <= length req <= 20)%nat) /\
    (forall freeBusy, res = Done freeBusy ->
       concat requests = map gocal.ResourceEmail resources) /\
    (forall k req calendars email cal,
       requests !! k = Some req -> Query k req = Some calendars ->
       (email, cal) ∈ calendars -> other_error cal = true ->
       res = Fatal "freebusy") /\
    (forall freeBusy email cal,
       gocal.record_calendar freeBusy email cal =
         if other_error cal then Fatal "freebusy"
         else if (0 <? length (gocal.Errors cal))%nat then Done freeBusy
         else Done (<[email := cal]> freeBusy)).
Proof.
  destruct (fetch_loop_spec Query resources (length resources + 1) 0 ∅ [])
    as (res & requests & Hrun & Hchunks & Hdone & Hfatal).
  - lia.
  - lia.
  - simpl. lia.
  - intros k req Hk. by rewrite lookup_nil in Hk.
  - intros k req cals Hk. by rewrite lookup_nil in Hk.
  - by rewrite take_0.
  - exists res, requests. split; [done|]. split; [exact Hchunks|].
    split; [exact Hdone|]. split; [exact Hfatal|]. apply record_calendar_spec.
Qed.

(** Forty-five rooms; the server knows nothing of the room numbered 7 and
    answers every other email with an empty calendar. *)
Definition numbered_room (n : nat) : gocal.CalendarResource :=
  gocal.mkResource (pretty n) "CONFERENCE_ROOM" "1" "1" "".

Definition answer (bad : string) (email : string) : string * gocal.FreeBusyCalendar :=
  (email,
   if String.eqb email "7" then gocal.mkCalendar [] [gocal.mkError "notFound"]
   else if String.eqb email "30" then gocal.mkCalendar [] [gocal.mkError bad]
   else gocal.mkCalendar [] []).

Example fetch_45_rooms :
  exists freeBusy requests,
    gocal.fetchFreeBusy (fun _ req => Some (map (answer "notFound") req))
      (map numbered_room (seq 0 45)) = Some (Done freeBusy, requests) /\
    map length requests = [20; 20; 5]%nat /\
    freeBusy !! "7"%string = None /\
    freeBusy !! "30"%string = None /\
    freeBusy !! "8"%string = Some (gocal.mkCalendar [] []) /\
    size freeBusy = 43%nat.
Proof. eexists _, _. split; [vm_compute; reflexivity|]. repeat split; vm_compute; reflexivity. Qed.

Example fetch_45_rooms_other_error :
  exists requests,
    gocal.fetchFreeBusy (fun _ req => Some (map (answer "rateLimitExceeded") req))
      (map numbered_room (seq 0 45)) = Some (Fatal "freebusy", requests) /\
    map length requests = [20; 20]%nat.
Proof. eexists. split; vm_compute; reflexivity. Qed.

(** ** Package [main]: rooms already booked *)

(** A catalog of one conference room, and a meeting whose only resource
    attendee is a room of another building, which has accepted. *)
Definition room_b : gocal.CalendarResource :=
  gocal.mkResource "room-b@example.com" "CONFERENCE_ROOM" "1" "1" "B".

Definition meeting_elsewhere : gocal.Event :=
  gocal.mkEvent "e1" "Sync" "" (gocal.mkDateTime "2026-01-05T10:00:00Z")
    (gocal.mkDateTime "2026-01-05T11:00:00Z")
    [gocal.mkAttendee "me@example.com" false "accepted" true;
     gocal.mkAttendee "room-a@elsewhere.example.com" true "accepted" false]
    false [] "" "" "" "" "" "" "confirmed".

(** C5, at the input where the code departs from it. No attendee of the
    meeting has the email of a room of the catalog, yet the meeting is
    recorded as having room B: the search returns the first room whose
    email is not below the attendee's, and the code takes it without
    comparing the two emails. *)
Theorem existingRoom_takes_room_with_other_email :
  gocal.has_booked_room [room_b] meeting_elsewhere = false /\
  gocal.existingRoom [room_b] meeting_elsewhere = Some room_b /\
  gocal.existingRooms [room_b] [meeting_elsewhere] = [Some room_b].
Proof. repeat split; reflexivity. Qed.

(** ** Package [main]: the assignment pass *)

Section AssignFacts.
Import gocal.
Variable dryRun : bool.
Variable calendarId : string.
Variable floor section : Z.
Variable resources : list CalendarResource.
Variable freeBusy : gmap string FreeBusyCalendar.
Variable Parse : string -> option interval.Time.
Variable sortSlice : (nat -> nat -> bool) -> list nat -> list nat.
Variable Do : nat -> call -> bool.

(** The neighbours' rooms as [rooms] gives them. *)
Definition prev_of (rooms : list (option CalendarResource)) (i : nat) : option CalendarResource :=
  if (0 <? i)%nat then mjoin (rooms !! (i - 1)%nat) else None.

Definition next_of (rooms : list (option CalendarResource)) (i : nat) : option CalendarResource :=
  mjoin (rooms !! (i + 1)%nat).

Definition pick_from (rooms : list (option CalendarResource)) (p : pick) : Prop :=
  pick_prevRoom p = prev_of rooms (pick_index p) /\
  pick_nextRoom p = next_of rooms (pick_index p).

(** A step that leaves [roomsImGoingTo] alone and records only picks made
    from it. *)
Definition steady {A} (rooms : list (option CalendarResource)) (m : M A) : Prop :=
  forall w, roomsImGoingTo w = rooms -> Forall (pick_from rooms) (picks w) ->
    roomsImGoingTo (m w).2 = rooms /\ Forall (pick_from rooms) (picks (m w).2).

Lemma steady_ret {A} rooms (a : A) : steady rooms (mret a).
Proof. by intros w. Qed.

Lemma steady_lift {A} rooms (o : outcome A) : steady rooms (lift o).
Proof. by intros w. Qed.

Lemma steady_bind {A B} rooms (m : M A) (k : A -> M B) :
  steady rooms m -> (forall a, steady rooms (k a)) -> steady rooms (m ≫= k).
Proof.
  intros Hm Hk w Hw Hp. destruct (Hm w Hw Hp) as [Hr' Hp'].
  unfold mbind, M_bind. destruct (m w) as [[a|msg|msg] w']; simpl in *; [|done|done].
  by apply Hk.
Qed.

Lemma steady_issue rooms c : steady rooms (issue dryRun Do c).
Proof. intros w Hw Hp. unfold issue. destruct dryRun; [done|]. by destruct (Do _ c). Qed.

Lemma steady_set_event rooms i e : steady rooms (set_event i e).
Proof. by intros w. Qed.

Lemma steady_note rooms p : pick_from rooms p -> steady rooms (note p).
Proof.
  intros Hgood w Hw Hp. split; [done|]. simpl. apply Forall_app. split; [done|].
  by constructor.
Qed.

Lemma steady_book rooms i event room : steady rooms (book dryRun calendarId Do i event room).
Proof.
  unfold book. apply steady_bind; [|intros; apply steady_set_event].
  destruct (_ || _ || _).
  - apply steady_bind; [apply steady_issue|]. intros _.
    destruct (negb _); [apply steady_issue | apply steady_ret].
  - apply steady_issue.
Qed.

Lemma next_of_code rooms i :
  (if (i <? length rooms - 1)%nat then
     match rooms !! (i + 1)%nat with Some (Some next) => Some next | _ => None end
   else None) = next_of rooms i.
Proof.
  unfold next_of. destruct (Nat.ltb_spec i (length rooms - 1)) as [Hi|Hi].
  - by destruct (rooms !! (i + 1)%nat) as [[?|]|].
  - by rewrite lookup_ge_None_2 by lia.
Qed.

Lemma steady_visit rooms i :
  steady rooms (visit dryRun calendarId floor section resources freeBusy Parse sortSlice Do i).
Proof.
  intros w Hw Hp. unfold visit.
  destruct (roomsImGoingTo w !! i) as [r|] eqn:Hr; [|done].
  destruct (eventsImGoingTo w !! i) as [event|]; [|done].
  destruct r; [done|]. rewrite next_of_code.
  revert w Hw Hp Hr. intros w Hw Hp Hr. rewrite Hw.
  apply (steady_bind rooms); [apply steady_lift| |done|done]. intros idxs.
  apply steady_bind; [apply steady_lift|]. intros room.
  apply steady_bind.
  - destruct room; [apply steady_book | apply steady_ret].
  - intros _. apply steady_note. by split.
Qed.

Lemma steady_visit_all rooms indices :
  steady rooms
    (visit_all dryRun calendarId floor section resources freeBusy Parse sortSlice Do indices).
Proof.
  induction indices as [|i rest IH]; simpl; [apply steady_ret|].
  apply steady_bind; [apply steady_visit | by intros _].
Qed.

(** The pass never writes [roomsImGoingTo]; at every event it looks for a
    room for, [prevRoom] and [nextRoom] are the rooms the two neighbours had
    before the pass began. *)
Lemma assign_reads_rooms_of_before (w : world) :
  picks w = [] ->
  let w' := (assign dryRun calendarId floor section resources freeBusy Parse sortSlice Do w).2 in
  roomsImGoingTo w' = roomsImGoingTo w /\
  Forall (pick_from (roomsImGoingTo w)) (picks w').
Proof.
  intros Hp. apply steady_visit_all; [done|]. rewrite Hp. constructor.
Qed.

(** The calls [book] makes when it creates a new entry. *)
Lemma book_calls_unfold i event room w :
  calls (book dryRun calendarId Do i event room w).2 =
    calls w ++
    if dryRun then []
    else if AttendeesOmitted event || Contains (Summary event) roomTag
            || Contains (Description event) roomTag
         then Insert calendarId (hold event room) ::
              (if Do (length (calls w)) (Insert calendarId (hold event room))
                  && negb (AttendeesOmitted event)
               then [Patch calendarId (Id event) (tag_patch event)] else [])
         else [Patch calendarId (Id event) (attendee_patch event room)].
Proof.
  unfold book, issue, mbind, M_bind, set_event, mret, M_ret.
  destruct dryRun; simpl.
  - destruct (_ || _ || _); simpl; [|by rewrite app_nil_r].
    destruct (negb _); simpl; by rewrite app_nil_r.
  - destruct (_ || _ || _); simpl.
    + destruct (Do _ (Insert _ _)); simpl; [|done].
      destruct (AttendeesOmitted event); simpl; [done|].
      destruct (Do _ (Patch _ _ _)); simpl; by rewrite <- app_assoc.
    + by destruct (Do _ (Patch _ _ _)).
Qed.

(** In memory the event always gets the room appended to its attendees,
    unless a call has failed before. *)
Lemma book_events_unfold i event room w :
  (book dryRun calendarId Do i event room w).1 = Done () ->
  eventsImGoingTo (book dryRun calendarId Do i event room w).2 =
    <[i := with_room event room]> (eventsImGoingTo w).
Proof.
  unfold book, issue, mbind, M_bind, set_event, mret, M_ret.
  destruct dryRun; simpl.
  - destruct (_ || _ || _); simpl; [|done]. by destruct (negb _).
  - destruct (_ || _ || _); simpl.
    + destruct (Do _ (Insert _ _)); simpl; [|done].
      destruct (AttendeesOmitted event); simpl; [done|].
      by destruct (Do _ (Patch _ _ _)).
    + by destruct (Do _ (Patch _ _ _)).
Qed.

End AssignFacts.

(** Two rooms on floor 1, both free all day, and two meetings of two
    people each, neither with a room; the preferred place is floor 1,
    section 1. *)
Definition room_1_2 : gocal.CalendarResource :=
  gocal.mkResource "b@x" "CONFERENCE_ROOM" "1" "2" "B".

Definition two_rooms : list gocal.CalendarResource := [room_1_1; room_1_2].

Definition all_free : gmap string gocal.FreeBusyCalendar :=
  <["a@x"%string := gocal.mkCalendar [] []]> (<["b@x"%string := gocal.mkCalendar [] []]> ∅).

Definition two_people : list gocal.EventAttendee :=
  [gocal.mkAttendee "me@x" false "accepted" true;
   gocal.mkAttendee "you@x" false "accepted" false].

Definition meeting (id summary from to : string) (omitted : bool) : gocal.Event :=
  gocal.mkEvent id summary "" (gocal.mkDateTime from) (gocal.mkDateTime to)
    two_people omitted [] "" "" "" "" "" "" "confirmed".

Definition morning : gocal.Event :=
  meeting "e0" "Planning" "2026-01-05T09:00:00Z" "2026-01-05T10:00:00Z" false.

Definition noon : gocal.Event :=
  meeting "e1" "Review" "2026-01-05T12:00:00Z" "2026-01-05T13:00:00Z" false.

Definition before_pass : gocal.world :=
  gocal.mkWorld [morning; noon] (gocal.existingRooms two_rooms [morning; noon]) [] [].

Definition pass (dryRun : bool) (w : gocal.world) : outcome () * gocal.world :=
  gocal.assign dryRun "primary" 1 1 two_rooms all_free (fun _ => None)
    gocal.insertionSort (fun _ _ => true) w.

(** C2, at the input where the code departs from it. The pass gives the
    first meeting room A (it patches the meeting with A as an attendee),
    then looks for a room for the second meeting with [prevRoom] nil: the
    room found for the first meeting was never stored in [roomsImGoingTo],
    which is the same after the pass as before it. *)
Theorem assign_prevRoom_misses_room_of_this_pass :
  gocal.roomsImGoingTo before_pass = [None; None] /\
  (pass false before_pass).1 = Done () /\
  gocal.calls (pass false before_pass).2 =
    [gocal.Patch "primary" "e0" (gocal.attendee_patch morning room_1_1);
     gocal.Patch "primary" "e1" (gocal.attendee_patch noon room_1_1)] /\
  gocal.picks (pass false before_pass).2 =
    [gocal.mkPick 0 None None (Some room_1_1);
     gocal.mkPick 1 None None (Some room_1_1)] /\
  gocal.roomsImGoingTo (pass false before_pass).2 = [None; None].
Proof. repeat split; vm_compute; reflexivity. Qed.

Definition offsite : gocal.Event :=
  meeting "e2" "Offsite #room" "2026-01-05T15:00:00Z" "2026-01-05T16:00:00Z" false.

(** C6 as stated fails: in a dry run a free room is found for a meeting
    that carries the room tag, and no event is created (no call is made at
    all). *)
Lemma book_dry_run_creates_no_event :
  Contains (gocal.Summary offsite) gocal.roomTag = true /\
  gocal.picks (pass true (gocal.mkWorld [offsite] [None] [] [])).2 =
    [gocal.mkPick 0 None None (Some room_1_1)] /\
  gocal.calls (pass true (gocal.mkWorld [offsite] [None] [] [])).2 = [] /\
  gocal.calls
    (gocal.book true "primary" (fun _ _ => true) 0 offsite room_1_1
       (gocal.mkWorld [offsite] [None] [] [])).2 = [].
Proof. repeat split; vm_compute; reflexivity. Qed.

(** C6, amended. Outside a dry run, when a room is booked for an event that
    carries the room tag or whose attendee list was truncated, the calls
    made are: first the insertion, in the calendar operated on, of a new
    event with the room as its only attendee, "Room for '...'" around the
    original summary as its summary, the original description, both with
    the room tag replaced by the done tag, and the original start, end,
    attachments, color, conference data, hangout link, location,
    transparency and visibility; then, if the insertion succeeded and the
    attendee list was not truncated, a patch of the original event that
    sets only its summary and description, with the tag replaced. No call
    touches the original event when its attendee list was truncated. When
    no call fails, the event held in memory gets the room appended to its
    attendees. *)
Theorem book_creates_hold_event (calendarId : string) (Do : nat -> gocal.call -> bool)
    (i : nat) (event : gocal.Event) (room : gocal.CalendarResource) (w : gocal.world) :
  gocal.AttendeesOmitted event || Contains (gocal.Summary event) gocal.roomTag
    || Contains (gocal.Description event) gocal.roomTag = true ->
  let created :=
    gocal.mkEvent ""
      ("Room for '" +:+ ReplaceAll (gocal.Summary event) "#room" "#addedroom" +:+ "'")
      (ReplaceAll (gocal.Description event) "#room" "#addedroom")
      (gocal.Start event) (gocal.End event)
      [gocal.mkAttendee (gocal.ResourceEmail room) false "" false] false
      (gocal.Attachments event) (gocal.ColorId event) (gocal.ConferenceData event)
      (gocal.HangoutLink event) (gocal.Location event) (gocal.Transparency event)
      (gocal.Visibility event) "" in
  let patch :=
    gocal.mkEvent ""
      (ReplaceAll (gocal.Summary event) "#room" "#addedroom")
      (ReplaceAll (gocal.Description event) "#room" "#addedroom")
      (gocal.mkDateTime "") (gocal.mkDateTime "") [] false [] "" "" "" "" "" "" "" in
  gocal.calls (gocal.book false calendarId Do i event room w).2 =
    gocal.calls w ++
    gocal.Insert calendarId created ::
    (if Do (length (gocal.calls w)) (gocal.Insert calendarId created)
        && negb (gocal.AttendeesOmitted event)
     then [gocal.Patch calendarId (gocal.Id event) patch] else []) /\
  ((gocal.book false calendarId Do i event room w).1 = Done () ->
   gocal.eventsImGoingTo (gocal.book false calendarId Do i event room w).2 =
     <[i := gocal.with_room event room]> (gocal.eventsImGoingTo w)).
Proof.
  intros Htag created patch. split.
  - rewrite book_calls_unfold, Htag. reflexivity.
  - apply book_events_unfold.
Qed.

(** C6, amended, at a meeting tagged "#room" whose attendee list is
    complete, with a calendar service that carries out every call. *)
Lemma book_creates_hold_event_witness :
  let w := gocal.mkWorld [meeting "e2" "Offsite #room" "f" "t" false] [None] [] [] in
  let booked := gocal.book false "primary" (fun _ _ => true) 0
                  (meeting "e2" "Offsite #room" "f" "t" false) room_1_1 w in
  gocal.calls booked.2 =
    [gocal.Insert "primary"
       (gocal.mkEvent "" "Room for 'Offsite #addedroom'" "" (gocal.mkDateTime "f")
          (gocal.mkDateTime "t") [gocal.mkAttendee "a@x" false "" false] false
          [] "" "" "" "" "" "" "");
     gocal.Patch "primary" "e2"
       (gocal.mkEvent "" "Offsite #addedroom" "" (gocal.mkDateTime "") (gocal.mkDateTime "")
          [] false [] "" "" "" "" "" "" "")] /\
  (booked.1 = Done () ->
   gocal.eventsImGoingTo booked.2 =
     [gocal.with_room (meeting "e2" "Offsite #room" "f" "t" false) room_1_1]).
Proof.
  exact (book_creates_hold_event "primary" (fun _ _ => true) 0
           (meeting "e2" "Offsite #room" "f" "t" false) room_1_1
           (gocal.mkWorld [meeting "e2" "Offsite #room" "f" "t" false] [None] [] [])
           eq_refl).
Defined.

(** * Further properties *)

(** ** Package [internal/interval]: [Overlaps] and [Less] *)

(** X1. [Overlaps] is symmetric. *)
Theorem Overlaps_symmetric (a b : Interval) : Overlaps a b = Overlaps b a.
Proof.
  unfold Overlaps, Before. destruct a as [sa ea], b as [sb eb]. simpl.
  destruct (Z.ltb_spec sb ea), (Z.ltb_spec sa eb); reflexivity.
Qed.

(** X2. For two intervals that are not empty, [Overlaps] holds exactly when
    the half-open ranges share an instant; whatever the intervals, one that
    ends where (or before) the other starts does not overlap it. *)
Theorem Overlaps_iff_common_instant (a b : Interval) :
  Start a < End a -> Start b < End b ->
  (Overlaps a b = true <->
   exists t, (Start a <= t < End a) /\ (Start b <= t < End b)) /\
  (End a <= Start b -> Overlaps a b = false).
Proof.
  intros Ha Hb. unfold Overlaps, Before. destruct a as [sa ea], b as [sb eb].
  simpl in *. split; [split|].
  - intros H. exists (Z.max sa sb).
    destruct (Z.ltb_spec sb ea), (Z.ltb_spec sa eb); simpl in H; try discriminate. lia.
  - intros (t & Hta & Htb).
    destruct (Z.ltb_spec sb ea), (Z.ltb_spec sa eb); simpl; try reflexivity; lia.
  - intros Hle. destruct (Z.ltb_spec sb ea); [lia | reflexivity].
Qed.

(** X2 at [[0, 10)] and [[10, 20)]. *)
Lemma Overlaps_iff_common_instant_witness :
  (Overlaps (mkInterval 0 10) (mkInterval 10 20) = true <->
   exists t, (0 <= t < 10) /\ (10 <= t < 20)) /\
  (10 <= 10 -> Overlaps (mkInterval 0 10) (mkInterval 10 20) = false).
Proof.
  apply (Overlaps_iff_common_instant (mkInterval 0 10) (mkInterval 10 20)); simpl; lia.
Defined.

(** X3. [Less] is a strict total order on intervals: nothing is less than
    itself, it is transitive, and of two different intervals one is less
    than the other. *)
Theorem Less_strict_total_order :
  (forall a, Less a a = false) /\
  (forall a b c, Less a b = true -> Less b c = true -> Less a c = true) /\
  (forall a b, Less a b = true \/ a = b \/ Less b a = true).
Proof.
  split; [|split].
  - intros a. unfold_Less.
  - intros a b c Hab Hbc. unfold_Less.
  - intros [sa ea] [sb eb]. unfold Less, Before, Equal. simpl.
    destruct (Z.ltb_spec sa sb); [by left|].
    destruct (Z.ltb_spec sb sa); [by right; right|].
    assert (sa = sb) as -> by lia. rewrite Z.eqb_refl. simpl.
    destruct (Z.ltb_spec ea eb); [by left|].
    destruct (Z.ltb_spec eb ea); [by right; right|].
    right; left. f_equal. lia.
Qed.

(** ** Package [internal/interval]: [Map] *)

#[local] Instance le_by_Less_antisym : AntiSymm (=) le_by_Less.
Proof.
  intros [sa ea] [sb eb]. unfold le_by_Less, Less, Before, Equal. simpl. intros H1 H2.
  destruct (Z.ltb_spec sb sa); [done|]. destruct (Z.ltb_spec sa sb); [done|].
  assert (sa = sb) as -> by lia. rewrite Z.eqb_refl in H1, H2. simpl in *.
  destruct (Z.ltb_spec eb ea); [done|]. destruct (Z.ltb_spec ea eb); [done|].
  f_equal. lia.
Qed.

Section MapMore.
Context {T : Type} (zero : T).

Lemma AddAll_snoc (ops : list (Time * Time * T)) s e t :
  AddAll zero (ops ++ [(s, e, t)]) = (im ← AddAll zero ops; Add zero im s e t).
Proof. unfold AddAll. by rewrite foldl_snoc. Qed.

(** On a sorted slice the index [Add] inserts at splits it into the
    intervals not above the new one and those above it. *)
Lemma add_index_split (im : Map T) s e :
  sorted_by_Less (intervals im) ->
  Forall (fun x => Less (mkInterval s e) x = false)
    (take (add_index im s e) (intervals im)) /\
  Forall (fun x => Less (mkInterval s e) x = true)
    (drop (add_index im s e) (intervals im)).
Proof.
  intros Hs.
  destruct (Search_monotone _ _ (add_index_monotone im s e Hs)) as [Hbelow Habove].
  change (sort.Search _ _) with (add_index im s e) in Hbelow, Habove.
  split; apply Forall_forall; intros x Hx.
  - apply elem_of_take in Hx as (k & Hk & Hkr).
    specialize (Hbelow k Hkr). unfold at_index in Hbelow. by rewrite Hk in Hbelow.
  - apply list_elem_of_lookup_1 in Hx as [k Hk]. rewrite lookup_drop in Hk.
    assert (add_index im s e + k < length (intervals im))%nat by (by eapply lookup_lt_Some).
    specialize (Habove (add_index im s e + k)%nat ltac:(lia)).
    unfold at_index in Habove. by rewrite Hk in Habove.
Qed.

(** The pairs an [Add] sequence is asked to store. *)
Definition pairs_of (ops : list (Time * Time * T)) : list (Interval * T) :=
  map (fun op => (mkInterval op.1.1 op.1.2, op.2)) ops.

Lemma AddAll_pairs (ops : list (Time * Time * T)) :
  exists im, AddAll zero ops = Done im /\ wf im /\
    zip (intervals im) (data im) ≡ₚ pairs_of ops.
Proof.
  induction ops as [|[[s e] t] ops IH] using rev_ind.
  - exists empty. split; [done|]. split; [apply wf_empty | done].
  - destruct IH as (im & Him & Hwf & Hperm).
    rewrite AddAll_snoc, Him. simpl.
    destruct Hwf as [Hlen Hs]. rewrite (Add_spec zero im s e t Hlen).
    eexists. split; [done|]. split.
    + destruct (Add_wf zero im s e t (conj Hlen Hs)) as (im' & Him' & Hwf').
      rewrite (Add_spec zero im s e t Hlen) in Him'. by injection Him' as <-.
    + simpl. pose proof (add_index_le im s e) as Hle.
      rewrite zip_with_app by (rewrite !length_take; lia). simpl.
      rewrite <- zip_with_take, <- zip_with_drop.
      unfold pairs_of. rewrite map_app. simpl.
      rewrite <- Permutation_middle, take_drop, Hperm.
      by rewrite <- Permutation_cons_append.
Qed.

(** What the loop of [Covering] returns is a run of consecutive values, all
    stored under containing intervals. *)
Lemma covering_loop_run (im : Map T) s e fuel i ret vs :
  covering_loop fuel im s e i ret = Done vs ->
  exists k, vs = ret ++ take k (drop i (data im)) /\
    forall j, (i <= j < i + k)%nat -> okFunc im s e j = true.
Proof.
  revert i ret. induction fuel as [|fuel IH]; intros i ret; simpl.
  - intros [= <-]. exists 0%nat. rewrite take_0, app_nil_r. split; [done|intros; lia].
  - destruct (Nat.ltb_spec i (length (intervals im))) as [Hi|Hi].
    + destruct (okFunc im s e i) eqn:Hok; simpl.
      * destruct (data im !! i) as [v|] eqn:Hv; [|done]. intros Hrun.
        apply IH in Hrun as (k & -> & Hall). exists (S k). split.
        -- rewrite <- app_assoc. f_equal. rewrite (drop_S _ _ _ Hv). simpl.
           by replace (i + 1)%nat with (S i) by lia.
        -- intros j Hj. destruct (Nat.eq_dec j i) as [->|Hne]; [done|].
           apply Hall. lia.
      * intros [= <-]. exists 0%nat. rewrite take_0, app_nil_r. split; [done|intros; lia].
    + intros [= <-]. exists 0%nat. rewrite take_0, app_nil_r. split; [done|intros; lia].
Qed.

Lemma run_sublist_filter {A} (P : A -> bool) (l : list A) (i k : nat) :
  (forall j x, (i <= j < i + k)%nat -> l !! j = Some x -> P x = true) ->
  take k (drop i l) `sublist_of` List.filter P l.
Proof.
  revert i k. induction l as [|y l IH]; intros i k Hall.
  - rewrite drop_nil, take_nil. constructor.
  - destruct i as [|i]; simpl.
    + destruct k as [|k]; [apply sublist_nil_l|]. simpl.
      rewrite (Hall 0%nat y) by (done || lia). constructor.
      apply (IH 0%nat k). intros j x Hj Hx. apply (Hall (S j)); [lia | done].
    + destruct (P y); [constructor|]; apply IH; intros j x Hj Hx;
        apply (Hall (S j)); (lia || done).
Qed.

Lemma Covering_sublist (im : Map T) s e vs :
  length (data im) = length (intervals im) ->
  Covering im s e = Done vs ->
  vs `sublist_of` covering_spec im s e.
Proof.
  intros Hlen. unfold Covering, covering_spec. destruct (_ =? _)%nat.
  - intros [= <-]. apply sublist_nil_l.
  - intros Hrun. apply covering_loop_run in Hrun as (k & -> & Hall). simpl.
    set (r := sort.Search _ _) in *.
    rewrite <- (snd_zip (intervals im) (data im)) at 1 by lia.
    rewrite <- fmap_drop, <- fmap_take.
    change (map snd ?l) with (snd <$> l).
    apply fmap_sublist, run_sublist_filter.
    intros j [x v] Hj Hjx. apply lookup_zip_with_Some in Hjx as (? & ? & [= <- <-] & Hx & _).
    simpl. rewrite <- (okFunc_contains im s e j x Hx). by apply Hall.
Qed.

End MapMore.

(** X4. On a map built by [Add] calls [Covering] returns, and what it
    returns is a sub-sequence of the values stored under intervals that
    contain the range, in stored order: it may miss values, it never
    returns one whose interval does not contain the range, nor one twice. *)
Theorem Covering_returns_subsequence_of_containing {T} (zero : T)
    (ops : list (Time * Time * T)) (s e : Time) :
  exists im vs,
    AddAll zero ops = Done im /\
    Covering im s e = Done vs /\
    vs `sublist_of` covering_spec im s e.
Proof.
  destruct (AddAll_wf zero ops) as (im & Him & Hlen & _).
  destruct (Covering_returns im s e Hlen) as [vs Hvs].
  exists im, vs. split; [done|]. split; [done|]. by apply Covering_sublist.
Qed.

(** X5. [Covering] is exact (all the values whose interval contains the
    range, in stored order) on every map built by [Add] calls in which,
    along the stored order, no interval fails to contain the range once an
    earlier one contains it. *)
Theorem Covering_exact_on_monotone_containment {T} (zero : T)
    (ops : list (Time * Time * T)) (s e : Time) (im : Map T) :
  AddAll zero ops = Done im ->
  (forall a b x y, (a <= b)%nat ->
     intervals im !! a = Some x -> intervals im !! b = Some y ->
     contains x s e = true -> contains y s e = true) ->
  Covering im s e = Done (covering_spec im s e).
Proof.
  intros Him Hmono. destruct (AddAll_wf zero ops) as (im' & Him' & Hlen & _).
  rewrite Him in Him'. injection Him' as <-.
  apply Covering_exact_when_monotone; [done|].
  intros a b [Hab Hb] Ha.
  destruct (lookup_lt_is_Some_2 (intervals im) a) as [x Hx]; [lia|].
  destruct (lookup_lt_is_Some_2 (intervals im) b) as [y Hy]; [lia|].
  rewrite (okFunc_contains im s e a x Hx) in Ha.
  rewrite (okFunc_contains im s e b y Hy). by apply (Hmono a b x y).
Qed.

(** X5 at the intervals [[0, 3)] and [[0, 10)] queried with [[0, 5)]. *)
Lemma Covering_exact_on_monotone_containment_witness :
  Covering (mkMap [mkInterval 0 3; mkInterval 0 10] ["a"%string; "b"%string]) 0 5 =
    Done (covering_spec
            (mkMap [mkInterval 0 3; mkInterval 0 10] ["a"%string; "b"%string]) 0 5).
Proof.
  apply (Covering_exact_on_monotone_containment ""%string
           [(0, 10, "b"%string); (0, 3, "a"%string)] 0 5).
  - reflexivity.
  - intros a b x y Hab Ha Hb Hx.
    destruct b as [|[|b]]; simpl in Hb; [|by injection Hb as <-|done].
    destruct a as [|a]; [|lia]. simpl in Ha. injection Ha as <-. discriminate Hx.
Defined.

(** X6. [Add] on a map built by [Add] calls puts the new interval and its
    value at one index, after every stored interval that is not above the
    new one (equal ones among them) and before every stored interval above
    it: among equal intervals the values stay in insertion order. *)
Theorem Add_inserts_after_equal_keys {T} (zero : T)
    (ops : list (Time * Time * T)) (s e : Time) (t : T) :
  exists im i,
    AddAll zero ops = Done im /\
    Add zero im s e t =
      Done (mkMap (take i (intervals im) ++ mkInterval s e :: drop i (intervals im))
                  (take i (data im) ++ t :: drop i (data im))) /\
    Forall (fun x => Less (mkInterval s e) x = false) (take i (intervals im)) /\
    Forall (fun x => Less (mkInterval s e) x = true) (drop i (intervals im)).
Proof.
  destruct (AddAll_wf zero ops) as (im & Him & Hlen & Hs).
  exists im, (add_index im s e). split; [done|]. split; [by apply Add_spec|].
  by apply add_index_split.
Qed.

(** X7. After any sequence of [Add] calls the stored pairs (interval,
    value) are the pairs inserted, each as often as it was inserted: nothing
    is lost, duplicated or paired with another interval. *)
Theorem AddAll_stores_every_pair {T} (zero : T) (ops : list (Time * Time * T)) :
  exists im,
    AddAll zero ops = Done im /\
    zip (intervals im) (data im) ≡ₚ
      map (fun op => (mkInterval op.1.1 op.1.2, op.2)) ops.
Proof.
  destruct (AddAll_pairs zero ops) as (im & Him & _ & Hperm). by exists im.
Qed.

(** X8. The stored sequence of intervals does not depend on the order of
    the [Add] calls: two sequences of calls that are permutations of each
    other leave the same [intervals]. *)
Theorem intervals_independent_of_insertion_order {T} (zero : T)
    (ops ops' : list (Time * Time * T)) :
  ops ≡ₚ ops' ->
  exists im im',
    AddAll zero ops = Done im /\ AddAll zero ops' = Done im' /\
    intervals im = intervals im'.
Proof.
  intros Hperm.
  destruct (AddAll_pairs zero ops) as (im & Him & [Hlen Hs] & Hp).
  destruct (AddAll_pairs zero ops') as (im' & Him' & [Hlen' Hs'] & Hp').
  exists im, im'. split; [done|]. split; [done|].
  apply (StronglySorted_unique le_by_Less).
  - by apply sorted_by_Less_StronglySorted.
  - by apply sorted_by_Less_StronglySorted.
  - rewrite <- (fst_zip (intervals im) (data im)) by lia.
    rewrite <- (fst_zip (intervals im') (data im')) by lia.
    apply fmap_Permutation. rewrite Hp, Hp'. unfold pairs_of.
    by apply Permutation_map.
Qed.

(** X8 at two insertions in either order. *)
Lemma intervals_independent_of_insertion_order_witness :
  exists im im' : Map string,
    AddAll ""%string [(5, 6, "b"%string); (0, 10, "a"%string)] = Done im /\
    AddAll ""%string [(0, 10, "a"%string); (5, 6, "b"%string)] = Done im' /\
    intervals im = intervals im'.
Proof.
  apply (intervals_independent_of_insertion_order ""%string
           [(5, 6, "b"%string); (0, 10, "a"%string)]
           [(0, 10, "a"%string); (5, 6, "b"%string)]).
  apply perm_swap.
Defined.

(** ** Package [internal/batch]: two extreme producers *)

Section UpMore.
Context {T : Type}.
Implicit Types (pending batch values : list T) (sent : list (list T)).

Lemma Up_loop_eager fuel tick pending batch sent :
  (length pending < fuel)%nat ->
  batch.Up_loop fuel (fun _ => true) tick pending batch sent =
    Some (if (0 <? length (batch ++ pending))%nat
          then sent ++ [batch ++ pending] else sent).
Proof.
  revert tick pending batch. induction fuel as [|fuel IH]; intros tick pending batch Hfuel;
    [lia|].
  simpl. destruct pending as [|v rest]; simpl.
  - rewrite app_nil_r. by destruct (0 <? length batch)%nat.
  - simpl in Hfuel. rewrite IH by lia. by rewrite <- app_assoc.
Qed.

Lemma Up_loop_slow fuel tick pending sent :
  (2 * length pending + 1 <= fuel)%nat ->
  batch.Up_loop fuel (fun _ => false) tick pending [] sent =
    Some (sent ++ map (fun v => [v]) pending).
Proof.
  revert fuel tick sent. induction pending as [|v rest IH]; intros fuel tick sent Hfuel.
  - destruct fuel as [|fuel]; [simpl in Hfuel; lia|]. simpl. by rewrite app_nil_r.
  - simpl in Hfuel. destruct fuel as [|[|fuel]]; [lia | lia |].
    cbn [batch.Up_loop length Nat.ltb Nat.leb batch.receive app].
    rewrite IH by lia. simpl. by rewrite <- app_assoc.
Qed.

End UpMore.

(** X9. When the producer is always ahead (every [select] finds the next
    value, or the close, already there) [Up] sends all the values in one
    batch, and sends nothing when there is no value. *)
Theorem Up_eager_producer_one_batch {T} (values : list T) (extra : nat) :
  batch.Up (length values + 1 + extra) (fun _ => true) values =
    Some (match values with [] => [] | _ => [values] end).
Proof.
  unfold batch.Up. rewrite Up_loop_eager by lia. by destruct values.
Qed.

(** X10. When the producer is never ahead (every [select] falls to
    [default]) [Up] waits for each value and sends it in a batch of its
    own: batches of more than one value are not guaranteed. *)
Theorem Up_slow_producer_singletons {T} (values : list T) (extra : nat) :
  batch.Up (2 * length values + 1 + extra) (fun _ => false) values =
    Some (map (fun v => [v]) values).
Proof. unfold batch.Up. by rewrite Up_loop_slow by lia. Qed.

(** ** Package [internal/itercal]: paging and the building index *)

Section ForEachFacts.
Context {Item S Err : Type}.
Implicit Types (f : Item -> S -> option Err * S) (st : S).

Lemma each_app f (l1 l2 : list Item) st :
  itercal.each f (l1 ++ l2) st =
    match itercal.each f l1 st with
    | (Some err, st') => (Some err, st')
    | (None, st') => itercal.each f l2 st'
    end.
Proof.
  revert st. induction l1 as [|x l1 IH]; intros st; simpl; [done|].
  destruct (f x st) as [[err|] st']; [done | apply IH].
Qed.

Lemma ForEach_pages f (pages : list (list Item)) (rest : list (Err + list Item)) st :
  itercal.ForEach (map inr pages ++ rest) f st =
    match itercal.each f (concat pages) st with
    | (Some err, st') => (Some err, st')
    | (None, st') => itercal.ForEach rest f st'
    end.
Proof.
  unfold itercal.ForEach. revert st.
  induction pages as [|page pages IH]; intros st; simpl; [done|].
  rewrite each_app. destruct (itercal.each f page st) as [[err|] st']; [done | apply IH].
Qed.

End ForEachFacts.

(** X11. Paging is transparent to the visitor: over pages that are all
    fetched, [ForEach] visits the items of all pages in order as one
    sequence and stops at the first item whose visit returns an error,
    returning it, with no later item visited and no later page requested;
    a request that fails ends the enumeration with its error. *)
Theorem ForEach_visits_in_order_until_error {Item S Err : Type}
    (f : Item -> S -> option Err * S) (pages : list (list Item))
    (rest : list (Err + list Item)) (st : S) :
  itercal.ForEach (map inr pages ++ rest) f st =
    match itercal.each f (concat pages) st with
    | (Some err, st') => (Some err, st')
    | (None, st') =>
        match rest with
        | inl err :: _ => (Some err, st')
        | _ => itercal.ForEach rest f st'
        end
    end /\
  (forall before item after st1 err st2,
     itercal.each f before st = (None, st1) -> f item st1 = (Some err, st2) ->
     itercal.each f (before ++ item :: after) st = (Some err, st2)).
Proof.
  split.
  - rewrite ForEach_pages. destruct (itercal.each f (concat pages) st) as [[err|] st']; [done|].
    by destruct rest as [|[err|page] rest].
  - intros before item after st1 err st2 Hbefore Hitem.
    rewrite each_app, Hbefore. simpl. by rewrite Hitem.
Qed.






(** ** Package [main]: the events kept *)

Section CollectFacts.
Import gocal.

(** The attendee is the user and has declined or not answered. *)
Definition self_out (a : EventAttendee) : bool :=
  Self a && (String.eqb (ResponseStatus a) "declined"
             || String.eqb (ResponseStatus a) "needsAction").

(** The attendee is a person who has not declined. *)
Definition human_in (a : EventAttendee) : bool :=
  negb (Resource a) && negb (String.eqb (ResponseStatus a) "declined").

(** The events the closure keeps, said in one piece. *)
Definition going (e : Event) : bool :=
  negb (String.eqb (DateTime (Start e)) "") &&
  negb (String.eqb (Status e) "cancelled") &&
  negb (String.eqb (Transparency e) "transparent") &&
  (Contains (Summary e) roomTag || Contains (Description e) roomTag
   || (negb (existsb self_out (Attendees e))
       && (2 <=? length (List.filter human_in (Attendees e)))%nat)).

Lemma count_humans_spec attendees humans :
  count_humans attendees humans =
    if existsb self_out attendees then None
    else Some (humans + length (List.filter human_in attendees))%nat.
Proof.
  revert humans. induction attendees as [|a rest IH]; intros humans; simpl.
  - f_equal. lia.
  - fold (self_out a). fold (human_in a). destruct (self_out a); simpl; [done|].
    destruct (human_in a); rewrite IH; destruct (existsb self_out rest); simpl;
      try done; f_equal; lia.
Qed.

Lemma collect_going e acc :
  collect e acc = if going e then acc ++ [e] else acc.
Proof.
  unfold collect, going.
  destruct (String.eqb (DateTime (Start e)) ""); simpl; [done|].
  destruct (String.eqb (Status e) "cancelled"); simpl; [done|].
  destruct (String.eqb (Transparency e) "transparent"); simpl; [done|].
  destruct (Contains (Summary e) roomTag || Contains (Description e) roomTag); simpl; [done|].
  rewrite count_humans_spec. destruct (existsb self_out (Attendees e)); simpl; [done|].
  destruct (length (List.filter human_in (Attendees e))) as [|[|n]]; done.
Qed.

Lemma each_collect (events acc : list Event) :
  itercal.each (fun e acc => (@None string, collect e acc)) events acc =
    (None, acc ++ List.filter going events).
Proof.
  revert acc. induction events as [|e events IH]; intros acc; simpl.
  - by rewrite app_nil_r.
  - rewrite IH, collect_going. destruct (going e); simpl; [|done].
    by rewrite <- app_assoc.
Qed.

End CollectFacts.

(** X13. When every page of events is fetched, [eventsImGoingTo] is, in
    the order of the calendar, the events that are timed (not all-day), not
    cancelled and not transparent, and that either carry the room tag in
    summary or description (whatever their attendees, the user's own answer
    included), or have no attendee who is the user having declined or not
    answered and at least two attendees who are not resources and have not
    declined. *)
Theorem eventsToGoTo_keeps_going_events (pages : list (list gocal.Event)) :
  gocal.eventsToGoTo (map inr pages) = (None, List.filter going (concat pages)) /\
  (forall e, going e =
     negb (String.eqb (gocal.DateTime (gocal.Start e)) "") &&
     negb (String.eqb (gocal.Status e) "cancelled") &&
     negb (String.eqb (gocal.Transparency e) "transparent") &&
     (Contains (gocal.Summary e) "#room" || Contains (gocal.Description e) "#room"
      || (negb (existsb (fun a => gocal.Self a &&
                           (String.eqb (gocal.ResponseStatus a) "declined"
                            || String.eqb (gocal.ResponseStatus a) "needsAction"))
                        (gocal.Attendees e))
          && (2 <=? length (List.filter
                              (fun a => negb (gocal.Resource a) &&
                                 negb (String.eqb (gocal.ResponseStatus a) "declined"))
                              (gocal.Attendees e)))%nat))).
Proof.
  split; [|reflexivity].
  unfold gocal.eventsToGoTo. rewrite <- (app_nil_r (map inr pages)), ForEach_pages.
  by rewrite each_collect.
Qed.

(** ** Package [main]: rooms already booked, continued *)

Section StringOrder.

Lemma Ascii_compare_refl c : Ascii.compare c c = Eq.
Proof. unfold Ascii.compare. apply N.compare_refl. Qed.

Lemma String_compare_refl s : String.compare s s = Eq.
Proof. induction s as [|c s IH]; simpl; [done|]. by rewrite Ascii_compare_refl. Qed.

Lemma String_leb_refl s : String.leb s s = true.
Proof. unfold String.leb. by rewrite String_compare_refl. Qed.

Lemma String_leb_trans a b c :
  String.leb a b = true -> String.leb b c = true -> String.leb a c = true.
Proof.
  unfold String.leb. revert b c. induction a as [|x a IH]; intros b c.
  - destruct c; simpl; done.
  - destruct b as [|y b]; simpl; [done|]. destruct c as [|z c]; simpl.
    + by destruct (Ascii.compare x y).
    + unfold Ascii.compare.
      destruct (N.compare_spec (N_of_ascii x) (N_of_ascii y)) as [Hxy|Hxy|Hxy];
        destruct (N.compare_spec (N_of_ascii y) (N_of_ascii z)) as [Hyz|Hyz|Hyz];
        destruct (N.compare_spec (N_of_ascii x) (N_of_ascii z)) as [Hxz|Hxz|Hxz];
        try done; try lia.
      apply IH.
Qed.

End StringOrder.

Section ExistingRoomFacts.
Import gocal.
Variable resources : list CalendarResource.

(** The test given to [sort.Search] for the attendee [a]. *)
Definition not_below (a : EventAttendee) (i : nat) : bool :=
  match resources !! i with
  | Some r => String.leb (Email a) (ResourceEmail r)
  | None => false
  end.

(** One turn of the loop over the attendees. *)
Definition attendee_step (room : option CalendarResource) (a : EventAttendee)
    : option CalendarResource :=
  if negb (Resource a) || negb (String.eqb (ResponseStatus a) "accepted") then room
  else
    let i := sort.Search (length resources) (not_below a) in
    if (i <? length resources)%nat then
      match resources !! i with
      | Some r =>
          if negb (String.eqb (ResourceCategory r) "CONFERENCE_ROOM") then room else Some r
      | None => room
      end
    else room.

Lemma existingRoom_fold e :
  existingRoom resources e = foldl attendee_step None (Attendees e).
Proof. reflexivity. Qed.

(** The attendee is a resource that has accepted, the room is a conference
    room of the catalog, and its email is not below the attendee's. *)
Definition taken_for (a : EventAttendee) (r : CalendarResource) : Prop :=
  r ∈ resources /\ ResourceCategory r = "CONFERENCE_ROOM"%string /\
  Resource a = true /\ ResponseStatus a = "accepted"%string /\
  String.leb (Email a) (ResourceEmail r) = true.

Lemma attendee_step_cases room a :
  attendee_step room a = room \/
  exists r, attendee_step room a = Some r /\ taken_for a r.
Proof.
  unfold attendee_step.
  destruct (Resource a) eqn:Hres; simpl; [|by left].
  destruct (String.eqb_spec (ResponseStatus a) "accepted") as [Hacc|]; simpl; [|by left].
  destruct (Search_spec (length resources) (not_below a)) as (_ & Htrue & _).
  set (i := sort.Search _ _) in *.
  destruct (Nat.ltb_spec i (length resources)) as [Hi|]; [|by left].
  specialize (Htrue Hi). unfold not_below in Htrue.
  destruct (resources !! i) as [r|] eqn:Hr; [|by left].
  destruct (String.eqb_spec (ResourceCategory r) "CONFERENCE_ROOM") as [Hcat|]; simpl;
    [|by left].
  right. exists r. split; [done|]. split; [by eapply list_elem_of_lookup_2|]. done.
Qed.

Lemma foldl_attendee_step attendees room r :
  foldl attendee_step room attendees = Some r ->
  room = Some r \/ exists a, a ∈ attendees /\ taken_for a r.
Proof.
  revert room. induction attendees as [|a rest IH]; intros room; simpl; [by left|].
  intros H. apply IH in H as [H|(a' & Ha' & Htaken)].
  - destruct (attendee_step_cases room a) as [Hsame|(r' & Hr' & Htaken)].
    + left. congruence.
    + right. exists a. split; [by left|]. congruence.
  - right. exists a'. split; [by right | done].
Qed.

(** In a catalog sorted by email, the search for an email the catalog has
    returns the first index where it is. *)
Lemma Search_not_below a k r :
  (forall i j ri rj, (i < j)%nat -> resources !! i = Some ri -> resources !! j = Some rj ->
     String.leb (ResourceEmail ri) (ResourceEmail rj) = true) ->
  resources !! k = Some r -> Email a = ResourceEmail r ->
  (forall j rj, (j < k)%nat -> resources !! j = Some rj -> ResourceEmail rj <> ResourceEmail r) ->
  sort.Search (length resources) (not_below a) = k.
Proof.
  intros Hsorted Hk Hemail Hfirst.
  assert (Hmono : sort.monotone (length resources) (not_below a)).
  { intros i j [Hij Hj]. unfold not_below.
    destruct (resources !! i) as [ri|] eqn:Hi; [|done].
    destruct (lookup_lt_is_Some_2 resources j Hj) as [rj Hrj]. rewrite Hrj. intros Hle.
    destruct (Nat.eq_dec i j) as [->|Hne]; [congruence|].
    apply (String_leb_trans _ (ResourceEmail ri)); [done|].
    apply (Hsorted i j); [lia | done | done]. }
  destruct (Search_monotone _ _ Hmono) as [Hbelow Habove].
  pose proof (Search_spec (length resources) (not_below a)) as [Hle _].
  set (i := sort.Search _ _) in *.
  assert (Hkn : (k < length resources)%nat) by (by eapply lookup_lt_Some).
  destruct (Nat.lt_trichotomy i k) as [Hlt|[Heq|Hgt]]; [|done|].
  - exfalso. specialize (Habove i ltac:(lia)). unfold not_below in Habove.
    destruct (resources !! i) as [ri|] eqn:Hi; [|done].
    apply (Hfirst i ri Hlt Hi). apply String.leb_antisym.
    + by apply (Hsorted i k).
    + by rewrite <- Hemail.
  - exfalso. specialize (Hbelow k Hgt). unfold not_below in Hbelow.
    rewrite Hk, Hemail, String_leb_refl in Hbelow. done.
Qed.

End ExistingRoomFacts.

(** X14. An event is recorded with a room only if one of its attendees is
    a resource that has accepted, and the room recorded is then a
    conference room of the catalog whose email is not below that
    attendee's; in particular an event without an accepted resource
    attendee is recorded without a room. *)
Theorem existingRoom_is_catalog_conference_room
    (resources : list gocal.CalendarResource) (e : gocal.Event) (r : gocal.CalendarResource) :
  gocal.existingRoom resources e = Some r ->
  r ∈ resources /\
  gocal.ResourceCategory r = "CONFERENCE_ROOM"%string /\
  exists a, a ∈ gocal.Attendees e /\
    gocal.Resource a = true /\ gocal.ResponseStatus a = "accepted"%string /\
    String.leb (gocal.Email a) (gocal.ResourceEmail r) = true.
Proof.
  rewrite existingRoom_fold. intros H.
  apply foldl_attendee_step in H as [H|(a & Ha & Hr & Hcat & Hres & Hacc & Hle)]; [done|].
  split; [done|]. split; [done|]. by exists a.
Qed.

(** X14 at the meeting whose room is of another building. *)
Lemma existingRoom_is_catalog_conference_room_witness :
  room_b ∈ [room_b] /\
  gocal.ResourceCategory room_b = "CONFERENCE_ROOM"%string /\
  exists a, a ∈ gocal.Attendees meeting_elsewhere /\
    gocal.Resource a = true /\ gocal.ResponseStatus a = "accepted"%string /\
    String.leb (gocal.Email a) (gocal.ResourceEmail room_b) = true.
Proof.
  apply (existingRoom_is_catalog_conference_room [room_b] meeting_elsewhere room_b).
  reflexivity.
Defined.

(** X15. In a catalog sorted by email, an event whose last attendee is a
    resource that has accepted, with the email of a conference room of the
    catalog (the first resource of the catalog with that email), is
    recorded with that room. *)
Theorem existingRoom_finds_room_by_email
    (resources : list gocal.CalendarResource) (e : gocal.Event)
    (others : list gocal.EventAttendee) (a : gocal.EventAttendee)
    (k : nat) (r : gocal.CalendarResource) :
  (forall i j ri rj, (i < j)%nat -> resources !! i = Some ri -> resources !! j = Some rj ->
     String.leb (gocal.ResourceEmail ri) (gocal.ResourceEmail rj) = true) ->
  resources !! k = Some r ->
  (forall j rj, (j < k)%nat -> resources !! j = Some rj ->
     gocal.ResourceEmail rj <> gocal.ResourceEmail r) ->
  gocal.ResourceCategory r = "CONFERENCE_ROOM"%string ->
  gocal.Attendees e = others ++ [a] ->
  gocal.Resource a = true -> gocal.ResponseStatus a = "accepted"%string ->
  gocal.Email a = gocal.ResourceEmail r ->
  gocal.existingRoom resources e = Some r.
Proof.
  intros Hsorted Hk Hfirst Hcat Hatt Hres Hacc Hemail.
  rewrite existingRoom_fold, Hatt, foldl_snoc. unfold attendee_step at 1.
  rewrite Hres, Hacc. simpl.
  rewrite (Search_not_below resources a k r Hsorted Hk Hemail Hfirst).
  destruct (Nat.ltb_spec k (length resources)) as [_|Hge].
  - by rewrite Hk, Hcat.
  - apply lookup_lt_Some in Hk. lia.
Qed.

(** X15 at the two rooms "a@x" and "b@x" and a meeting that room "b@x" has
    accepted. *)
Lemma existingRoom_finds_room_by_email_witness :
  gocal.existingRoom two_rooms
    (gocal.mkEvent "e3" "Standup" "" (gocal.mkDateTime "f") (gocal.mkDateTime "t")
       (two_people ++ [gocal.mkAttendee "b@x" true "accepted" false])
       false [] "" "" "" "" "" "" "confirmed") = Some room_1_2.
Proof.
  apply (existingRoom_finds_room_by_email two_rooms _ two_people
           (gocal.mkAttendee "b@x" true "accepted" false) 1 room_1_2);
    try reflexivity.
  - intros i j ri rj Hij Hi Hj.
    destruct j as [|[|j]]; [lia | | done]. destruct i as [|i]; [|lia].
    simpl in Hi, Hj. injection Hi as <-. injection Hj as <-. reflexivity.
  - intros j rj Hj Hrj. destruct j as [|j]; [|lia].
    simpl in Hrj. injection Hrj as <-. discriminate.
Defined.

(** ** Package [main]: the choice of a room *)

Section FirstFreeFacts.
Import gocal.
Variable resources : list CalendarResource.
Variable freeBusy : gmap string FreeBusyCalendar.
Variable Parse : string -> option interval.Time.

(** The candidate at index [j] is passed over: no free/busy calendar was
    fetched for it, or one of its busy periods overlaps the event. *)
Definition passed_over (event : Event) (j : nat) : Prop :=
  exists rj, resources !! j = Some rj /\
    (freeBusy !! ResourceEmail rj = None \/
     exists fb, freeBusy !! ResourceEmail rj = Some fb /\
       busy_during Parse event (Busy fb) = Done true).

Lemma first_free_Some event idxs room :
  first_free resources freeBusy Parse event idxs = Done (Some room) ->
  exists before idx after fb,
    idxs = before ++ idx :: after /\
    resources !! idx = Some room /\
    freeBusy !! ResourceEmail room = Some fb /\
    busy_during Parse event (Busy fb) = Done false /\
    Forall (passed_over event) before.
Proof.
  induction idxs as [|idx rest IH]; simpl; [done|].
  destruct (resources !! idx) as [r|] eqn:Hr; [|done].
  assert (Hrest : passed_over event idx ->
            first_free resources freeBusy Parse event rest = Done (Some room) ->
            exists before idx' after fb,
              idx :: rest = before ++ idx' :: after /\
              resources !! idx' = Some room /\
              freeBusy !! ResourceEmail room = Some fb /\
              busy_during Parse event (Busy fb) = Done false /\
              Forall (passed_over event) before).
  { intros Hpass H. apply IH in H as (before & idx' & after & fb & -> & H1 & H2 & H3 & H4).
    exists (idx :: before), idx', after, fb. split; [done|]. repeat (split; [done|]).
    by constructor. }
  destruct (freeBusy !! ResourceEmail r) as [fb|] eqn:Hfb.
  - destruct (busy_during Parse event (Busy fb)) as [[|]| |] eqn:Hbusy; simpl; try done.
    + apply Hrest. exists r. split; [done|]. right. by exists fb.
    + intros [= <-]. exists [], idx, rest, fb. repeat (split; [done|]). constructor.
  - apply Hrest. exists r. split; [done|]. by left.
Qed.

Lemma first_free_None event idxs :
  first_free resources freeBusy Parse event idxs = Done None ->
  Forall (passed_over event) idxs.
Proof.
  induction idxs as [|idx rest IH]; simpl; [constructor|].
  destruct (resources !! idx) as [r|] eqn:Hr; [|done].
  destruct (freeBusy !! ResourceEmail r) as [fb|] eqn:Hfb.
  - destruct (busy_during Parse event (Busy fb)) as [[|]| |] eqn:Hbusy; simpl; try done.
    intros H. constructor; [|by apply IH]. exists r. split; [done|]. right. by exists fb.
  - intros H. constructor; [|by apply IH]. exists r. split; [done|]. by left.
Qed.

Lemma busy_during_parsed event busy st en (ivs : list interval.Interval) :
  Parse (DateTime (Start event)) = Some st ->
  Parse (DateTime (End event)) = Some en ->
  Forall2 (fun tp iv => Parse (PeriodStart tp) = Some (interval.Start iv) /\
                        Parse (PeriodEnd tp) = Some (interval.End iv)) busy ivs ->
  busy_during Parse event busy =
    Done (existsb (interval.Overlaps (interval.mkInterval st en)) ivs).
Proof.
  intros Hst Hen Hall. induction Hall as [|tp [s e] busy ivs [Hs He] _ IH]; [done|].
  simpl in *. unfold interval.OrDie, interval.dateTimeOrDie.
  rewrite Hst, Hen, Hs, He. simpl.
  destruct (interval.Overlaps _ _); [done | exact IH].
Qed.

End FirstFreeFacts.

(** X16. The room the pass books for an event is a room of the catalog
    for which a free/busy calendar was fetched and none of whose busy
    periods overlaps the event, and it is the first such room of the ranked
    list: every candidate ranked before it either has no free/busy calendar
    or is busy during the event. When no room is booked, every candidate
    is in one of these two cases. *)
Theorem first_free_books_first_available_room
    (resources : list gocal.CalendarResource)
    (freeBusy : gmap string gocal.FreeBusyCalendar)
    (Parse : string -> option interval.Time) (event : gocal.Event) (idxs : list nat) :
  (forall room,
     gocal.first_free resources freeBusy Parse event idxs = Done (Some room) ->
     exists before idx after fb,
       idxs = before ++ idx :: after /\
       resources !! idx = Some room /\
       freeBusy !! gocal.ResourceEmail room = Some fb /\
       gocal.busy_during Parse event (gocal.Busy fb) = Done false /\
       Forall (passed_over resources freeBusy Parse event) before) /\
  (gocal.first_free resources freeBusy Parse event idxs = Done None ->
   Forall (passed_over resources freeBusy Parse event) idxs).
Proof.
  split; [intros room; apply first_free_Some | apply first_free_None].
Qed.

(** X17. When the start and end of the event and of every busy period are
    valid times, a room is busy during the event exactly when one of its
    busy periods overlaps the event in the half-open sense of
    [Interval.Overlaps]. *)
Theorem busy_during_iff_a_period_overlaps
    (Parse : string -> option interval.Time) (event : gocal.Event)
    (busy : list gocal.TimePeriod) (st en : interval.Time)
    (ivs : list interval.Interval) :
  Parse (gocal.DateTime (gocal.Start event)) = Some st ->
  Parse (gocal.DateTime (gocal.End event)) = Some en ->
  Forall2 (fun tp iv => Parse (gocal.PeriodStart tp) = Some (interval.Start iv) /\
                        Parse (gocal.PeriodEnd tp) = Some (interval.End iv)) busy ivs ->
  gocal.busy_during Parse event busy =
    Done (existsb (interval.Overlaps (interval.mkInterval st en)) ivs).
Proof. apply busy_during_parsed. Qed.

(** Times written as hours of one day, for the examples. *)
Definition hour (s : string) : option interval.Time :=
  match ParseInt s with
  | Some h => if (0 <=? h) && (h <=? 24) then Some h else None
  | None => None
  end.

(** X17 at an event from 10 to 11 and a room busy from 9 to 10 and from
    10 to 12. *)
Lemma busy_during_iff_a_period_overlaps_witness :
  gocal.busy_during hour (meeting "e4" "Retro" "10" "11" false)
    [gocal.mkPeriod "9" "10"; gocal.mkPeriod "10" "12"] =
  Done (existsb (interval.Overlaps (interval.mkInterval 10 11))
          [interval.mkInterval 9 10; interval.mkInterval 10 12]).
Proof.
  apply (busy_during_iff_a_period_overlaps hour (meeting "e4" "Retro" "10" "11" false)
           [gocal.mkPeriod "9" "10"; gocal.mkPeriod "10" "12"] 10 11
           [interval.mkInterval 9 10; interval.mkInterval 10 12]);
    [reflexivity | reflexivity |].
  repeat constructor.
Defined.

(** A room busy from 10 to 12 is passed over for the event from 10 to 11,
    a room without free/busy calendar too, and the third room is booked. *)
Example first_free_skips_busy_and_unknown :
  gocal.first_free [room_1_1; room_4_2; room_1_2]
    (<["a@x"%string := gocal.mkCalendar [gocal.mkPeriod "10" "12"] []]> all_free)
    hour (meeting "e4" "Retro" "10" "11" false) [0; 1; 2]%nat = Done (Some room_1_2).
Proof. vm_compute. reflexivity. Qed.

(** ** Package [main]: [distance], continued *)

Section DistanceMore.
Import gocal.

(** Floors and sections a building can have: far from the ends of [int]. *)
Definition modest (x : Z) : Prop := - 2 ^ 50 <= x <= 2 ^ 50.

Lemma leg_modest first subsequent d a b :
  modest a -> modest b -> 0 <= d <= 2 ^ 56 -> 0 <= first <= 15 -> 0 <= subsequent <= 10 ->
  a <> b ->
  add (add d first) (mul (sub (abs (sub a b)) 1) subsequent) =
    d + first + (Z.abs (a - b) - 1) * subsequent.
Proof.
  unfold modest. intros Ha Hb Hd Hfirst Hsub Hne.
  assert (Hsubab : sub a b = a - b).
  { unfold sub. apply wrap_small. unfold MinInt, MaxInt. lia. }
  assert (Habs : abs (sub a b) = Z.abs (a - b)).
  { rewrite Hsubab. unfold abs, neg. destruct (Z.ltb_spec (a - b) 0).
    - rewrite wrap_small by (unfold MinInt, MaxInt; lia). lia.
    - lia. }
  rewrite Habs. unfold add, mul, sub.
  rewrite (wrap_small (Z.abs (a - b) - 1)) by (unfold MinInt, MaxInt; lia).
  rewrite (wrap_small ((Z.abs (a - b) - 1) * subsequent)) by (unfold MinInt, MaxInt; nia).
  rewrite (wrap_small (d + first)) by (unfold MinInt, MaxInt; lia).
  apply wrap_small. unfold MinInt, MaxInt. nia.
Qed.

(** The distance as one expression. *)
Definition metres (f1 s1 f2 s2 : Z) : Z :=
  10 * Z.abs (f1 - f2) + (if f1 =? f2 then 0 else 5) + 5 * Z.abs (s1 - s2).

Lemma distance_metres r1 r2 f1 s1 f2 s2 :
  ParseInt (FloorName r1) = Some f1 -> ParseInt (FloorSection r1) = Some s1 ->
  ParseInt (FloorName r2) = Some f2 -> ParseInt (FloorSection r2) = Some s2 ->
  modest f1 -> modest s1 -> modest f2 -> modest s2 ->
  distance (Some r1) (Some r2) = Done (metres f1 s1 f2 s2).
Proof.
  intros Hf1 Hs1 Hf2 Hs2 Mf1 Ms1 Mf2 Ms2.
  rewrite (distance_parsed r1 r2 f1 s1 f2 s2) by done. f_equal. unfold metres.
  cbv zeta. unfold firstChangeOfFloor, firstChangeOfSection, subsequentChangeOfFloor,
    subsequentChangeOfSection.
  destruct (Z.eqb_spec f1 f2) as [->|Hf]; simpl negb; cbv iota.
  - destruct (Z.eqb_spec s1 s2) as [->|Hs]; simpl negb; cbv iota; [lia|].
    rewrite (leg_modest 5 5 0 s1 s2) by (done || lia). lia.
  - rewrite (leg_modest (5 + 10) 10 0 f1 f2) by (done || lia).
    destruct (Z.eqb_spec s1 s2) as [->|Hs]; simpl negb; cbv iota; [lia|].
    rewrite (leg_modest 5 5 _ s1 s2); [lia | done | done | | lia | lia | done].
    unfold modest in *. lia.
Qed.

End DistanceMore.

(** X18. For rooms whose floor and section names are integers between
    [-2^50] and [2^50], the distance is ten per floor of difference, plus
    five if the floors differ at all, plus five per section of difference,
    computed without overflow. *)
Theorem distance_closed_form (r1 r2 : gocal.CalendarResource) (f1 s1 f2 s2 : Z) :
  ParseInt (gocal.FloorName r1) = Some f1 -> ParseInt (gocal.FloorSection r1) = Some s1 ->
  ParseInt (gocal.FloorName r2) = Some f2 -> ParseInt (gocal.FloorSection r2) = Some s2 ->
  - 2 ^ 50 <= f1 <= 2 ^ 50 -> - 2 ^ 50 <= s1 <= 2 ^ 50 ->
  - 2 ^ 50 <= f2 <= 2 ^ 50 -> - 2 ^ 50 <= s2 <= 2 ^ 50 ->
  gocal.distance (Some r1) (Some r2) =
    Done (10 * Z.abs (f1 - f2) + (if f1 =? f2 then 0 else 5) + 5 * Z.abs (s1 - s2)).
Proof. apply distance_metres. Qed.

(** X18 at floor 1 section 1 and floor 3 section 1. *)
Lemma distance_closed_form_witness :
  gocal.distance (Some room_1_1) (Some room_3_1) =
    Done (10 * Z.abs (1 - 3) + (if 1 =? 3 then 0 else 5) + 5 * Z.abs (1 - 1)).
Proof.
  apply (distance_closed_form room_1_1 room_3_1 1 1 3 1); (reflexivity || lia).
Defined.

(** X19. On rooms whose floor and section names are integers between
    [-2^50] and [2^50], [distance] is a metric on the places (floor,
    section): it is never negative, it is 0 only between rooms on the same
    floor and section, and going through a third room is never shorter
    (triangle inequality). *)
Theorem distance_is_a_metric (r1 r2 r3 : gocal.CalendarResource)
    (f1 s1 f2 s2 f3 s3 : Z) :
  ParseInt (gocal.FloorName r1) = Some f1 -> ParseInt (gocal.FloorSection r1) = Some s1 ->
  ParseInt (gocal.FloorName r2) = Some f2 -> ParseInt (gocal.FloorSection r2) = Some s2 ->
  ParseInt (gocal.FloorName r3) = Some f3 -> ParseInt (gocal.FloorSection r3) = Some s3 ->
  - 2 ^ 50 <= f1 <= 2 ^ 50 -> - 2 ^ 50 <= s1 <= 2 ^ 50 ->
  - 2 ^ 50 <= f2 <= 2 ^ 50 -> - 2 ^ 50 <= s2 <= 2 ^ 50 ->
  - 2 ^ 50 <= f3 <= 2 ^ 50 -> - 2 ^ 50 <= s3 <= 2 ^ 50 ->
  exists d12 d23 d13,
    gocal.distance (Some r1) (Some r2) = Done d12 /\
    gocal.distance (Some r2) (Some r3) = Done d23 /\
    gocal.distance (Some r1) (Some r3) = Done d13 /\
    0 <= d12 /\
    (d12 = 0 <-> f1 = f2 /\ s1 = s2) /\
    d13 <= d12 + d23.
Proof.
  intros Hf1 Hs1 Hf2 Hs2 Hf3 Hs3 Mf1 Ms1 Mf2 Ms2 Mf3 Ms3.
  exists (metres f1 s1 f2 s2), (metres f2 s2 f3 s3), (metres f1 s1 f3 s3).
  split; [by apply distance_metres|]. split; [by apply distance_metres|].
  split; [by apply distance_metres|]. unfold metres.
  destruct (Z.eqb_spec f1 f2), (Z.eqb_spec f2 f3), (Z.eqb_spec f1 f3); lia.
Qed.

(** X19 at rooms on floors 1, 3 and 4. *)
Lemma distance_is_a_metric_witness :
  exists d12 d23 d13,
    gocal.distance (Some room_1_1) (Some room_3_1) = Done d12 /\
    gocal.distance (Some room_3_1) (Some room_4_2) = Done d23 /\
    gocal.distance (Some room_1_1) (Some room_4_2) = Done d13 /\
    0 <= d12 /\
    (d12 = 0 <-> 1 = 3 /\ 1 = 1) /\
    d13 <= d12 + d23.
Proof.
  apply (distance_is_a_metric room_1_1 room_3_1 room_4_2 1 1 3 1 4 2);
    (reflexivity || lia).
Defined.

(** X20. Between two rooms that are not nil, [distance] returns a value
    exactly when the floor and section names of both rooms are integers
    that fit 64 bits; with any other name the process is ended
    ([log.Fatalf]). With a nil room no name is looked at. *)
Theorem distance_dies_on_a_name_that_is_no_integer (r1 r2 : gocal.CalendarResource) :
  ((exists d, gocal.distance (Some r1) (Some r2) = Done d) <->
   is_Some (ParseInt (gocal.FloorName r1)) /\ is_Some (ParseInt (gocal.FloorName r2)) /\
   is_Some (ParseInt (gocal.FloorSection r1)) /\ is_Some (ParseInt (gocal.FloorSection r2))) /\
  ((forall d, gocal.distance (Some r1) (Some r2) <> Done d) ->
   gocal.distance (Some r1) (Some r2) = Fatal "cannot be converted to int").
Proof.
  unfold gocal.distance, gocal.intOrDie.
  destruct (ParseInt (gocal.FloorName r1)) as [f1|]; simpl.
  2: { split; [|done]. split; [by intros [d Hd] | by intros ([? ?] & _)]. }
  destruct (ParseInt (gocal.FloorName r2)) as [f2|]; simpl.
  2: { split; [|done]. split; [by intros [d Hd] | by intros (_ & [? ?] & _)]. }
  destruct (ParseInt (gocal.FloorSection r1)) as [s1|]; simpl.
  2: { split; [|done]. split; [by intros [d Hd] | by intros (_ & _ & [? ?] & _)]. }
  destruct (ParseInt (gocal.FloorSection r2)) as [s2|]; simpl.
  2: { split; [|done]. split; [by intros [d Hd] | by intros (_ & _ & _ & [? ?])]. }
  split.
  - split; [intros _; eauto | intros _; eauto].
  - intros H. exfalso. by eapply H.
Qed.

(** ** Package [main]: the assignment pass, continued *)

Section AssignMore.
Import gocal.
Variable dryRun : bool.
Variable calendarId : string.
Variable floor section : Z.
Variable resources : list CalendarResource.
Variable freeBusy : gmap string FreeBusyCalendar.
Variable Parse : string -> option interval.Time.
Variable sortSlice : (nat -> nat -> bool) -> list nat -> list nat.
Variable Do : nat -> call -> bool.

(** A step that keeps a property of the state, also when it ends the run. *)
Definition keeps {A} (I : world -> Prop) (m : M A) : Prop :=
  forall w, I w -> I (m w).2.

Lemma keeps_ret {A} I (a : A) : keeps I (mret a).
Proof. by intros w. Qed.

Lemma keeps_lift {A} I (o : outcome A) : keeps I (lift o).
Proof. by intros w. Qed.

Lemma keeps_bind {A B} I (m : M A) (k : A -> M B) :
  keeps I m -> (forall a, keeps I (k a)) -> keeps I (m ≫= k).
Proof.
  intros Hm Hk w Hw. specialize (Hm w Hw).
  unfold mbind, M_bind. destruct (m w) as [[a|msg|msg] w']; simpl in *; [|done|done].
  by apply Hk.
Qed.

(** The property does not look at the calls made. *)
Definition blind_to_calls (I : world -> Prop) : Prop :=
  forall w c, I w -> I (mkWorld (eventsImGoingTo w) (roomsImGoingTo w) c (picks w)).

Lemma keeps_issue I c : blind_to_calls I -> keeps I (issue dryRun Do c).
Proof.
  intros HI w Hw. unfold issue. destruct dryRun; [done|].
  destruct (Do _ c); simpl; by apply HI.
Qed.

Lemma keeps_book I i event room :
  blind_to_calls I -> keeps I (set_event i (with_room event room)) ->
  keeps I (book dryRun calendarId Do i event room).
Proof.
  intros HI Hset. unfold book. apply keeps_bind; [|by intros _].
  destruct (_ || _ || _).
  - apply keeps_bind; [by apply keeps_issue|]. intros _.
    destruct (negb _); [by apply keeps_issue | apply keeps_ret].
  - by apply keeps_issue.
Qed.

(** What the pass keeps of the state it started from: [roomsImGoingTo],
    the number of events, every event that has a room, and picks at
    events without a room only. *)
Definition untouched (w0 w : world) : Prop :=
  roomsImGoingTo w = roomsImGoingTo w0 /\
  length (eventsImGoingTo w) = length (eventsImGoingTo w0) /\
  (forall j r, roomsImGoingTo w0 !! j = Some (Some r) ->
     eventsImGoingTo w !! j = eventsImGoingTo w0 !! j) /\
  Forall (fun p => roomsImGoingTo w0 !! pick_index p = Some None) (picks w).

Lemma untouched_blind w0 : blind_to_calls (untouched w0).
Proof. by intros w c. Qed.

Lemma untouched_set_event w0 i e :
  roomsImGoingTo w0 !! i = Some None -> keeps (untouched w0) (set_event i e).
Proof.
  intros Hi w (Hrooms & Hlen & Hev & Hpicks). split; [done|]. simpl.
  split; [by rewrite length_insert|]. split; [|done].
  intros j r Hj. rewrite list_lookup_insert_ne; [by apply (Hev j r)|].
  intros ->. congruence.
Qed.

Lemma untouched_note w0 p :
  roomsImGoingTo w0 !! pick_index p = Some None -> keeps (untouched w0) (note p).
Proof.
  intros Hp w (Hrooms & Hlen & Hev & Hpicks). repeat (split; [done|]). simpl.
  apply Forall_app. split; [done|]. by constructor.
Qed.

Lemma untouched_visit w0 i :
  keeps (untouched w0)
    (visit dryRun calendarId floor section resources freeBusy Parse sortSlice Do i).
Proof.
  intros w Hw. unfold visit.
  destruct (roomsImGoingTo w !! i) as [r|] eqn:Hr; [|done].
  destruct (eventsImGoingTo w !! i) as [event|]; [|done].
  destruct r; [done|].
  assert (Hi : roomsImGoingTo w0 !! i = Some None) by (destruct Hw as [<- _]; done).
  refine (keeps_bind (untouched w0) _ _ _ _ w Hw); [apply keeps_lift|]. intros idxs.
  apply keeps_bind; [apply keeps_lift|]. intros room.
  apply keeps_bind.
  - destruct room; [|apply keeps_ret].
    apply keeps_book; [apply untouched_blind | by apply untouched_set_event].
  - intros _. by apply untouched_note.
Qed.

Lemma untouched_visit_all w0 indices :
  keeps (untouched w0)
    (visit_all dryRun calendarId floor section resources freeBusy Parse sortSlice Do indices).
Proof.
  induction indices as [|i rest IH]; simpl; [apply keeps_ret|].
  apply keeps_bind; [apply untouched_visit | by intros _].
Qed.

Lemma unchanged_calls_visit cs i :
  dryRun = true ->
  keeps (fun w => calls w = cs)
    (visit dryRun calendarId floor section resources freeBusy Parse sortSlice Do i).
Proof.
  intros Hdry w Hw. unfold visit.
  destruct (roomsImGoingTo w !! i) as [r|]; [|done].
  destruct (eventsImGoingTo w !! i) as [event|]; [|done].
  destruct r; [done|].
  assert (Hissue : forall c, keeps (fun w => calls w = cs) (issue dryRun Do c)).
  { intros c w1 Hw1. unfold issue. by rewrite Hdry. }
  refine (keeps_bind (fun w => calls w = cs) _ _ _ _ w Hw); [apply keeps_lift|]. intros idxs.
  apply keeps_bind; [apply keeps_lift|]. intros room.
  apply keeps_bind; [|by intros _ w1].
  destruct room; [|apply keeps_ret].
  unfold book. apply keeps_bind; [|by intros _ w1].
  destruct (_ || _ || _); [|apply Hissue].
  apply keeps_bind; [apply Hissue|]. intros _.
  destruct (negb _); [apply Hissue | apply keeps_ret].
Qed.

Lemma unchanged_calls_visit_all cs indices :
  dryRun = true ->
  keeps (fun w => calls w = cs)
    (visit_all dryRun calendarId floor section resources freeBusy Parse sortSlice Do indices).
Proof.
  intros Hdry. induction indices as [|i rest IH]; simpl; [apply keeps_ret|].
  apply keeps_bind; [by apply unchanged_calls_visit | by intros _].
Qed.

Lemma rank_without_anchor :
  (floor = 0 \/ section = 0) -> (2 <= length resources)%nat ->
  rank floor section resources sortSlice None None = Fatal "must provide -floor and -section".
Proof.
  intros Hflag Hlen. unfold rank.
  destruct (Nat.ltb_spec (length resources) 2) as [?|_]; [lia|].
  destruct resources as [|r rest]; [simpl in Hlen; lia|].
  assert (Hkey : rank_key floor section None None r =
                  Fatal "must provide -floor and -section").
  { unfold rank_key. destruct Hflag as [-> | ->]; [done | by rewrite orb_true_r]. }
  cbn [mapM]. rewrite Hkey. reflexivity.
Qed.

End AssignMore.

(** X21. The assignment pass never changes [roomsImGoingTo] nor the number
    of events, leaves every event that already had a room exactly as it
    was, and looks for a room only at events recorded without one. *)
Theorem assign_leaves_events_with_a_room (dryRun : bool) (calendarId : string)
    (floor section : Z) (resources : list gocal.CalendarResource)
    (freeBusy : gmap string gocal.FreeBusyCalendar)
    (Parse : string -> option interval.Time)
    (sortSlice : (nat -> nat -> bool) -> list nat -> list nat)
    (Do : nat -> gocal.call -> bool) (w : gocal.world) :
  gocal.picks w = [] ->
  let w' := (gocal.assign dryRun calendarId floor section resources freeBusy Parse
               sortSlice Do w).2 in
  gocal.roomsImGoingTo w' = gocal.roomsImGoingTo w /\
  length (gocal.eventsImGoingTo w') = length (gocal.eventsImGoingTo w) /\
  (forall j r, gocal.roomsImGoingTo w !! j = Some (Some r) ->
     gocal.eventsImGoingTo w' !! j = gocal.eventsImGoingTo w !! j) /\
  Forall (fun p => gocal.roomsImGoingTo w !! gocal.pick_index p = Some None)
    (gocal.picks w').
Proof.
  intros Hpicks. apply untouched_visit_all.
  split; [done|]. split; [done|]. split; [done|]. rewrite Hpicks. constructor.
Qed.

(** Three meetings, the second with room B already accepted. *)
Definition afternoon : gocal.Event :=
  gocal.mkEvent "e5" "Demo" "" (gocal.mkDateTime "14") (gocal.mkDateTime "15")
    (two_people ++ [gocal.mkAttendee "b@x" true "accepted" false])
    false [] "" "" "" "" "" "" "confirmed".

Definition three_meetings : gocal.world :=
  gocal.mkWorld [morning; afternoon; noon]
    (gocal.existingRooms two_rooms [morning; afternoon; noon]) [] [].

(** X21 at the three meetings. *)
Lemma assign_leaves_events_with_a_room_witness :
  let w' := (gocal.assign false "primary" 1 1 two_rooms all_free (fun _ => None)
               gocal.insertionSort (fun _ _ => true) three_meetings).2 in
  gocal.roomsImGoingTo w' = gocal.roomsImGoingTo three_meetings /\
  length (gocal.eventsImGoingTo w') = length (gocal.eventsImGoingTo three_meetings) /\
  (forall j r, gocal.roomsImGoingTo three_meetings !! j = Some (Some r) ->
     gocal.eventsImGoingTo w' !! j = gocal.eventsImGoingTo three_meetings !! j) /\
  Forall (fun p => gocal.roomsImGoingTo three_meetings !! gocal.pick_index p = Some None)
    (gocal.picks w').
Proof.
  apply (assign_leaves_events_with_a_room false "primary" 1 1 two_rooms all_free
           (fun _ => None) gocal.insertionSort (fun _ _ => true) three_meetings).
  reflexivity.
Defined.

(** X22. In a dry run the assignment pass makes no call to the calendar
    service, whatever the events, rooms, free/busy data and flags. *)
Theorem assign_dry_run_makes_no_call (calendarId : string)
    (floor section : Z) (resources : list gocal.CalendarResource)
    (freeBusy : gmap string gocal.FreeBusyCalendar)
    (Parse : string -> option interval.Time)
    (sortSlice : (nat -> nat -> bool) -> list nat -> list nat)
    (Do : nat -> gocal.call -> bool) (w : gocal.world) :
  gocal.calls (gocal.assign true calendarId floor section resources freeBusy Parse
                 sortSlice Do w).2 = gocal.calls w.
Proof.
  by apply (unchanged_calls_visit_all true calendarId floor section resources freeBusy
              Parse sortSlice Do (gocal.calls w)).
Qed.

(** X23. At an event without a room whose two neighbours have none
    either, when [-floor] or [-section] is 0 and the catalog has at least
    two rooms, the pass ends the process ("must provide -floor and
    -section") before any call is made for that event. *)
Theorem visit_exits_without_anchor (dryRun : bool) (calendarId : string)
    (floor section : Z) (resources : list gocal.CalendarResource)
    (freeBusy : gmap string gocal.FreeBusyCalendar)
    (Parse : string -> option interval.Time)
    (sortSlice : (nat -> nat -> bool) -> list nat -> list nat)
    (Do : nat -> gocal.call -> bool) (w : gocal.world) (i : nat) (event : gocal.Event) :
  gocal.roomsImGoingTo w !! i = Some None ->
  gocal.eventsImGoingTo w !! i = Some event ->
  prev_of (gocal.roomsImGoingTo w) i = None ->
  next_of (gocal.roomsImGoingTo w) i = None ->
  floor = 0 \/ section = 0 ->
  (2 <= length resources)%nat ->
  gocal.visit dryRun calendarId floor section resources freeBusy Parse sortSlice Do i w =
    (Fatal "must provide -floor and -section", w).
Proof.
  intros Hroom Hevent Hprev Hnext Hflag Hlen. unfold gocal.visit.
  rewrite Hroom, Hevent, next_of_code, Hnext.
  unfold prev_of in Hprev. rewrite Hprev.
  unfold mbind, gocal.M_bind, gocal.lift.
  by rewrite (rank_without_anchor floor section resources sortSlice Hflag Hlen).
Qed.

(** X23 at the first of two meetings without rooms, with no [-floor]. *)
Lemma visit_exits_without_anchor_witness :
  gocal.visit false "primary" 0 1 two_rooms all_free (fun _ => None)
    gocal.insertionSort (fun _ _ => true) 0 before_pass =
    (Fatal "must provide -floor and -section", before_pass).
Proof.
  apply (visit_exits_without_anchor false "primary" 0 1 two_rooms all_free (fun _ => None)
           gocal.insertionSort (fun _ _ => true) before_pass 0 morning);
    first [reflexivity | by left | simpl; lia].
Defined.
